(** * synkafka: the per-broker connection actor ([src/broker.cpp])

    A shallow embedding of [synkafka::Broker]: the connection life cycle,
    the in-flight queue, the writer and the response-framing reader, with
    the asio completions and the promise/future pairs made explicit; and
    of the byte slices of [src/utils/slice.cpp]. *)

From Stdlib Require Import ZArith Lia List.
From Stdlib Require Import Strings.Byte.
From stdpp Require Import base option list gmap strings.

Local Open Scope Z_scope.

(** ** Machine integers and bytes *)

(** [int32_t] values are kept as [Z]; arithmetic that can leave the range
    is followed by [wrap_int32] (two's complement wrap-around). *)
Definition int32_min : Z := - 2 ^ 31.
Definition int32_max : Z := 2 ^ 31 - 1.

Definition wrap_int32 (z : Z) : Z := (z + 2 ^ 31) mod 2 ^ 32 - 2 ^ 31.

Definition in_int32 (z : Z) : Prop := int32_min <= z <= int32_max.

Definition byte_to_Z (b : byte) : Z := Z.of_N (Byte.to_N b).

Definition byte_of_Z (z : Z) : byte :=
  default x00 (Byte.of_N (Z.to_N (z mod 256))).

(** Big-endian image of a 32-bit integer, most significant byte first. *)
Definition be32 (z : Z) : list byte :=
  [byte_of_Z (Z.shiftr z 24); byte_of_Z (Z.shiftr z 16);
   byte_of_Z (Z.shiftr z 8); byte_of_Z z].

Definition be16 (z : Z) : list byte :=
  [byte_of_Z (Z.shiftr z 8); byte_of_Z z].

(** Modelled from the spec: [buffer_t] (buffer.h is not part of the sources
    at hand), the byte buffer the reader stages a header in and sizes anew
    for each response body. The code uses it through the standard sequence
    interface: [new buffer_t(n)] is [n] zero bytes, [size()] their number,
    and [at(i)] the bounds-checked access that throws std::out_of_range
    past the end. *)
Definition buffer_t := list byte.

Definition new_buffer (n : nat) : buffer_t := replicate n x00.

(** ** C++ exceptions that the modelled code can raise or store *)

Inductive future_errc := broken_promise | promise_already_satisfied | no_state.

Inductive exception :=
| system_error (ec : Z)            (* boost::system::system_error(ec) *)
| runtime_error (what : string)    (* std::runtime_error(what) *)
| future_error (c : future_errc)   (* std::future_error *)
| out_of_range                     (* buffer_t::at past the end *)
| length_error.                    (* buffer_t sized beyond max_size *)

(** ** Wire codec *)

(** proto::RequestHeader, with the fields [Broker::call] initialises in
    order; the integers are 16, 16 and 32 bits wide. *)
Record RequestHeader := mkRequestHeader {
  api_key : Z;
  api_version : Z;
  correlation_id : Z;
  client_id : string;
}.

(** Modelled from the spec: [PacketDecoder] (packet.h is not part of the
    sources at hand). A cursor over a byte buffer; every integer is read
    big-endian, two's complement; reading past the end latches an error
    and leaves the cursor where it was. *)
Record PacketDecoder := mkPacketDecoder {
  pd_buff : buffer_t;
  pd_cursor : nat;
  pd_err : option string;
}.

Definition PacketDecoder_new (buff : buffer_t) : PacketDecoder :=
  mkPacketDecoder buff 0 None.

Definition pd_ok (pd : PacketDecoder) : bool :=
  match pd_err pd with None => true | Some _ => false end.

Definition pd_err_str (pd : PacketDecoder) : string :=
  match pd_err pd with None => "" | Some s => s end.

(** Modelled from the spec: [PacketDecoder::io(int32_t&)], four bytes
    big-endian; the value left in the variable after a failed read is not
    looked at by the caller. *)
Definition pd_io_int32 (pd : PacketDecoder) : PacketDecoder * Z :=
  match pd_err pd with
  | Some _ => (pd, 0)
  | None =>
    match take 4 (drop (pd_cursor pd) (pd_buff pd)) with
    | [b3; b2; b1; b0] =>
      (mkPacketDecoder (pd_buff pd) (pd_cursor pd + 4) None,
       wrap_int32 (byte_to_Z b3 * 2 ^ 24 + byte_to_Z b2 * 2 ^ 16
                   + byte_to_Z b1 * 2 ^ 8 + byte_to_Z b0))
    | _ =>
      (mkPacketDecoder (pd_buff pd) (pd_cursor pd)
                       (Some "Not enough bytes left in buffer"), 0)
    end
  end.

(** Modelled from the spec: proto::ResponseHeader is the correlation id
    alone (the length prefix is read separately by the caller). *)
Definition pd_io_ResponseHeader (pd : PacketDecoder) : PacketDecoder * Z :=
  pd_io_int32 pd.

Definition string_bytes (s : string) : list byte :=
  map Ascii.byte_of_ascii (String.list_ascii_of_string s).

(** Modelled from the spec: [PacketEncoder] applied to a request header
    (packet.h is not part of the sources at hand). On the wire the header
    is [api_key:i16][api_version:i16][correlation_id:i32][client_id], the
    string as [len:i16][bytes]; a string whose length does not fit the
    signed 16-bit prefix cannot be encoded. The buffer handed to the
    socket starts with the 32-bit length of header plus body
    ([get_as_buffer_sequence_head]). *)
Definition spec_encode_header (h : RequestHeader) (body_size : nat)
  : option buffer_t :=
  let cid := string_bytes (client_id h) in
  if decide (Z.of_nat (length cid) <= 32767) then
    let hdr := be16 (api_key h) ++ be16 (api_version h)
               ++ be32 (correlation_id h)
               ++ be16 (Z.of_nat (length cid)) ++ cid in
    Some (be32 (Z.of_nat (length hdr + body_size)) ++ hdr)
  else None.

(** ** Broker state *)

Inductive connection_state :=
  StateInit | StateConnecting | StateConnected | StateClosed.

Inductive resp_handler_state :=
  RespHandlerStateIdle | RespHandlerStateReadHeader | RespHandlerStateReadResp.

Global Instance connection_state_eq_dec : EqDecision connection_state.
Proof. solve_decision. Defined.

Global Instance resp_handler_state_eq_dec : EqDecision resp_handler_state.
Proof. solve_decision. Defined.

(** What a future observes. The shared state of each promise/future pair
    lives in the world's [shared] map under the promise's handle. *)
Inductive future_state :=
| Pending
| Ready (pd : PacketDecoder)
| Failed (e : exception).

(** InFlightRequest ([header.correlation_id] and the broker's counter are
    32-bit signed integers): [packet] is the already encoded body
    ([packet->get_as_slice(false)]); [response_promise] names the shared
    state the caller's future waits on. *)
Record InFlightRequest := mkInFlightRequest {
  header : RequestHeader;
  packet : buffer_t;
  sent : bool;
  response_promise : nat;
}.

Definition endpoint := (string * Z)%type.

(** The members of [Broker] that the modelled functions read or write
    ([identity_] by its host and port; the strand, resolver, socket, mutex
    and condition variable are the world around it). *)
Record Broker := mkBroker {
  client_id_ : string;
  identity_host : string;
  identity_port : Z;
  next_correlation_id_ : Z;
  in_flight_ : list InFlightRequest;
  connection_state_ : connection_state;
  response_handler_state_ : resp_handler_state;
  header_buffer_ : buffer_t;
  response_buffer_ : option buffer_t;
}.

(** Which of the reader's two buffers an asynchronous read fills. *)
Inductive buffer_id := HeaderBuffer | ResponseBuffer.

(** Handlers bound into the strand. *)
Inductive task :=
| PushRequest (req : InFlightRequest)
| ResponseHandlerActor (ec : Z) (n : nat).

(** Operations handed to the io_service and not yet completed. *)
Inductive async_op :=
| OpResolve (host : string) (port : Z)
| OpConnect (ep : endpoint) (next : list endpoint)
| OpWrite (buffers : list buffer_t)
| OpRead (target : buffer_id) (size : nat)
| OpPost (t : task).

(** Immediate, observable side effects. *)
Inductive effect :=
| Log (msg : string)
| SocketShutdown
| SocketClose
| NotifyAll.

Record World := mkWorld {
  broker : Broker;
  shared : gmap nat future_state;
  pending : list async_op;
  output : list effect;
}.

(** ** Field updates *)

Definition set_next_correlation_id (v : Z) (b : Broker) : Broker :=
  mkBroker (client_id_ b) (identity_host b) (identity_port b) v
           (in_flight_ b) (connection_state_ b) (response_handler_state_ b)
           (header_buffer_ b) (response_buffer_ b).

Definition set_in_flight (v : list InFlightRequest) (b : Broker) : Broker :=
  mkBroker (client_id_ b) (identity_host b) (identity_port b)
           (next_correlation_id_ b) v (connection_state_ b)
           (response_handler_state_ b) (header_buffer_ b) (response_buffer_ b).

Definition set_connection_state (v : connection_state) (b : Broker) : Broker :=
  mkBroker (client_id_ b) (identity_host b) (identity_port b)
           (next_correlation_id_ b) (in_flight_ b) v
           (response_handler_state_ b) (header_buffer_ b) (response_buffer_ b).

Definition set_response_handler_state (v : resp_handler_state) (b : Broker)
  : Broker :=
  mkBroker (client_id_ b) (identity_host b) (identity_port b)
           (next_correlation_id_ b) (in_flight_ b) (connection_state_ b) v
           (header_buffer_ b) (response_buffer_ b).

Definition set_header_buffer (v : buffer_t) (b : Broker) : Broker :=
  mkBroker (client_id_ b) (identity_host b) (identity_port b)
           (next_correlation_id_ b) (in_flight_ b) (connection_state_ b)
           (response_handler_state_ b) v (response_buffer_ b).

Definition set_response_buffer (v : option buffer_t) (b : Broker) : Broker :=
  mkBroker (client_id_ b) (identity_host b) (identity_port b)
           (next_correlation_id_ b) (in_flight_ b) (connection_state_ b)
           (response_handler_state_ b) (header_buffer_ b) v.

Definition set_sent (v : bool) (r : InFlightRequest) : InFlightRequest :=
  mkInFlightRequest (header r) (packet r) v (response_promise r).

Definition set_correlation_id (v : Z) (r : InFlightRequest) : InFlightRequest :=
  mkInFlightRequest
    (mkRequestHeader (api_key (header r)) (api_version (header r)) v
                     (client_id (header r)))
    (packet r) (sent r) (response_promise r).

Definition with_broker (f : Broker -> Broker) (w : World) : World :=
  mkWorld (f (broker w)) (shared w) (pending w) (output w).

Definition with_shared (f : gmap nat future_state -> gmap nat future_state)
  (w : World) : World :=
  mkWorld (broker w) (f (shared w)) (pending w) (output w).

Definition with_pending (f : list async_op -> list async_op) (w : World)
  : World :=
  mkWorld (broker w) (shared w) (f (pending w)) (output w).

Definition with_output (f : list effect -> list effect) (w : World) : World :=
  mkWorld (broker w) (shared w) (pending w) (f (output w)).

(** ** The handler monad: state, C++ exceptions, undefined behaviour *)

Inductive outcome (A : Type) :=
| Returns (a : A) (w : World)
| Throws (e : exception) (w : World)
| Undefined                (* null or past-the-end dereference *)
| Exhausted.               (* the model's recursion budget ran out *)
Arguments Returns {A} a w.
Arguments Throws {A} e w.
Arguments Undefined {A}.
Arguments Exhausted {A}.

Definition M (A : Type) : Type := World -> outcome A.

Global Instance M_ret : MRet M := fun A a w => Returns a w.

Global Instance M_bind : MBind M := fun A B f m w =>
  match m w with
  | Returns a w' => f a w'
  | Throws e w' => Throws e w'
  | Undefined => Undefined
  | Exhausted => Exhausted
  end.

Definition get_broker : M Broker := fun w => Returns (broker w) w.
Definition get_world : M World := fun w => Returns w w.
Definition modify_broker (f : Broker -> Broker) : M unit :=
  fun w => Returns () (with_broker f w).
Definition emit (e : effect) : M unit :=
  fun w => Returns () (with_output (fun o => o ++ [e]) w).
Definition submit (op : async_op) : M unit :=
  fun w => Returns () (with_pending (fun p => p ++ [op]) w).
Definition throw {A} (e : exception) : M A := fun w => Throws e w.
Definition undefined {A} : M A := fun _ => Undefined.
Definition exhausted {A} : M A := fun _ => Exhausted.

(** *** std::promise *)

Definition promise_set (p : nat) (v : future_state) : M unit := fun w =>
  match shared w !! p with
  | Some Pending => Returns () (with_shared (insert p v) w)
  | Some _ => Throws (future_error promise_already_satisfied) w
  | None => Throws (future_error no_state) w
  end.

Definition set_value (p : nat) (pd : PacketDecoder) : M unit :=
  promise_set p (Ready pd).

Definition set_exception (p : nat) (e : exception) : M unit :=
  promise_set p (Failed e).

(** ~promise: an unfulfilled shared state is made ready with
    broken_promise; a fulfilled one is left alone. *)
Definition promise_destroy (p : nat) : M unit := fun w =>
  match shared w !! p with
  | Some Pending =>
    Returns () (with_shared (insert p (Failed (future_error broken_promise))) w)
  | _ => Returns () w
  end.

(** in_flight_.pop_front(): the head record and its promise are destroyed. *)
Definition pop_front : M unit :=
  b ← get_broker;
  match in_flight_ b with
  | [] => undefined
  | req :: rest =>
    modify_broker (set_in_flight rest);;
    promise_destroy (response_promise req)
  end.

Inductive synkafka_error := no_error | network_timeout | network_fail.

(** ** Byte slices ([src/utils/slice.cpp]) *)

(** A [slice] is a pointer [m_data] and a length [m_sz] (slice.h is not
    part of the sources at hand); it is kept as the [m_sz] bytes it covers,
    each an unsigned 8-bit value. *)
Definition slice := list byte.

(** [ostr << num] under [std::hex], for an unsigned int: its hexadecimal
    digits, lower case, most significant first, no leading zero (an
    unsigned int has at most 8 of them). *)
Definition hex_digit (d : Z) : string :=
  String.substring (Z.to_nat d) 1 "0123456789abcdef".

Fixpoint hex_digits (n : nat) (num : Z) : string :=
  match n with
  | O => ""
  | S n' =>
    (if decide (num / 16 = 0) then "" else hex_digits n' (num / 16))
    +:+ hex_digit (num mod 16)
  end.

(** [ostr << std::setw(width) << std::setfill(fill) << num]: the digits,
    padded on the left up to [width] characters, never cut. *)
Definition put_hex (width : nat) (fill : string) (num : Z) : string :=
  let digits := hex_digits 8 num in
  String.concat "" (replicate (width - String.length digits) fill) +:+ digits.

(** The loop of [slice::hex] over the bytes still to print, [ostr] being
    what the stream holds so far. *)
Fixpoint hex_loop (data : list byte) (ostr : string) : string :=
  match data with
  | [] => ostr
  | b :: rest => hex_loop rest (ostr +:+ put_hex 2 "0" (byte_to_Z b))
  end.

(** slice::hex. The loop counter is a [uint32_t]: against a size of 2^32
    or more it wraps around before reaching it and the loop never ends
    ([None]). *)
Definition hex (s : slice) : option string :=
  if decide (Z.of_nat (length s) < 2 ^ 32) then Some (hex_loop s "") else None.

(** [memcmp] over the first [n] bytes, compared as unsigned values: zero
    when they agree, else the sign of the first difference; [None] is a
    read past the end of either block. *)
Fixpoint memcmp (s1 s2 : list byte) (n : nat) {struct n} : option Z :=
  match n with
  | O => Some 0
  | S n' =>
    match s1, s2 with
    | a :: s1', b :: s2' =>
      if decide (byte_to_Z a = byte_to_Z b) then memcmp s1' s2' n'
      else Some (byte_to_Z a - byte_to_Z b)
    | _, _ => None
    end
  end.

(** slice::starts_with; [&&] does not evaluate the [memcmp] when the size
    test fails. *)
Definition starts_with (s prefix : slice) : option bool :=
  if decide (length prefix ≤ length s)%nat then
    r ← memcmp s prefix (length prefix); Some (bool_decide (r = 0))
  else Some false.

(** Reading a hex string back, two digits per byte; used to state that
    [hex] loses nothing. *)
Definition hex_value (c : Ascii.ascii) : option Z :=
  Z.of_nat ∘ fst
  <$> list_find (eq c) (String.list_ascii_of_string "0123456789abcdef").

Fixpoint unhex (s : string) : option (list byte) :=
  match s with
  | EmptyString => Some []
  | String hi (String lo rest) =>
    h ← hex_value hi; l ← hex_value lo; tl ← unhex rest;
    Some (byte_of_Z (16 * h + l) :: tl)
  | String _ EmptyString => None
  end.

(** ** Broker member functions *)

Section BrokerCode.

(** Declared in headers that are not part of the sources at hand: the
    compile-time API version, and what [PacketEncoder::io(RequestHeader)]
    followed by [get_as_buffer_sequence_head(body_size)] yields ([None]
    when the encoder's [ok()] is false afterwards). *)
Variable KafkaApiVersion : Z.
Variable encode_header : RequestHeader -> nat -> option buffer_t.

(** Broker::Broker *)
Definition Broker_new (host : string) (port : Z) (client : string) : Broker :=
  mkBroker client host port 1 [] StateInit RespHandlerStateIdle
           (new_buffer (4 + 4)) None.

Definition World_new (host : string) (port : Z) (client : string) : World :=
  mkWorld (Broker_new host port client) ∅ [] [].

(** Broker::close *)
Definition close : M unit :=
  b ← get_broker;
  if decide (connection_state_ b = StateClosed) then mret ()
  else
    emit (Log "Closing connection to broker ");;
    emit SocketShutdown;;
    emit SocketClose;;
    modify_broker (set_connection_state StateClosed);;
    emit NotifyAll.

(** Broker::is_connected, Broker::is_closed *)
Definition is_connected : M bool :=
  b ← get_broker; mret (bool_decide (connection_state_ b = StateConnected)).

Definition is_closed : M bool :=
  b ← get_broker; mret (bool_decide (connection_state_ b = StateClosed)).

(** Broker::call. The new promise's shared state gets a handle no other
    pair uses; the handle is what the returned future waits on. *)
Definition call (api_key : Z) (request_packet : buffer_t) : M nat :=
  w ← get_world;
  let f := fresh (dom (shared w)) in
  let r := mkInFlightRequest
             (mkRequestHeader api_key KafkaApiVersion 0 (client_id_ (broker w)))
             request_packet false f in
  (fun w => Returns () (with_shared (insert f Pending) w));;
  submit (OpPost (PushRequest r));;
  mret f.

(** Broker::write_next_request *)
Definition write_next_request : M unit :=
  emit (Log "write_next_request");;
  b ← get_broker;
  match in_flight_ b with
  | [] => mret ()
  | req :: _ =>
    if sent req then mret ()
    else
      match encode_header (header req) (length (packet req)) with
      | None => mret ()
      | Some header_buffer => submit (OpWrite [header_buffer; packet req])
      end
  end.

(** Broker::push_request. On the closed path the handler returns and the
    record it owned goes away with its promise unfulfilled; on the other
    path the record, promise included, is moved into the queue. *)
Definition push_request (req : InFlightRequest) : M unit :=
  emit (Log "push_request");;
  closed ← is_closed;
  if (closed : bool) then promise_destroy (response_promise req)
  else
    b ← get_broker;
    let req' := set_correlation_id (next_correlation_id_ b) req in
    modify_broker (set_next_correlation_id
                     (wrap_int32 (next_correlation_id_ b + 1)));;
    modify_broker (fun b => set_in_flight (in_flight_ b ++ [req']) b);;
    connected ← is_connected;
    if (connected : bool) then write_next_request else mret ().

(** Broker::handle_resolve. asio reports success with a non-empty range;
    [*endpoint_iterator] on an empty one is undefined. *)
Definition handle_resolve (ec : Z) (endpoint_iterator : list endpoint)
  : M unit :=
  emit (Log "handle_resolve ec: ");;
  if decide (ec ≠ 0) then close
  else
    match endpoint_iterator with
    | [] => undefined
    | ep :: next => submit (OpConnect ep next)
    end.

(** Broker::handle_connect *)
Definition handle_connect (ec : Z) (endpoint_iterator : list endpoint)
  : M unit :=
  emit (Log "handle_connect ec: ");;
  if decide (ec = 0) then
    modify_broker (set_connection_state StateConnected);;
    emit NotifyAll;;
    b ← get_broker;
    match in_flight_ b with
    | [] => mret ()
    | _ :: _ => write_next_request
    end
  else
    match endpoint_iterator with
    | ep :: next => emit SocketClose;; submit (OpConnect ep next)
    | [] => close
    end.

(** Broker::handle_write *)
Definition handle_write (ec : Z) (bytes_written : nat) : M unit :=
  b ← get_broker;
  match in_flight_ b with
  | [] => emit (Log "Write completed but in_flight queue is empty")
  | req :: rest =>
    if decide (ec ≠ 0) then
      emit (Log "handle_write failing request: ");;
      set_exception (response_promise req) (system_error ec);;
      pop_front
    else
      modify_broker (set_in_flight (set_sent true req :: rest));;
      if decide (response_handler_state_ b = RespHandlerStateIdle) then
        emit (Log "handle_write sent OK (");;
        submit (OpPost (ResponseHandlerActor 0 0))
      else mret ()
  end.

(** [&buf->at(0)], [buf->size()] as handed to [boost::asio::buffer]. *)
Definition buffer_at0 (buf : option buffer_t) : M unit :=
  match buf with
  | None => undefined
  | Some [] => throw out_of_range
  | Some (_ :: _) => mret ()
  end.

(** Broker::response_handler_actor, one activation; [self] stands for the
    function itself at the call in the ReadResp case. *)
Definition response_handler_actor_body (self : Z -> nat -> M unit)
  (ec : Z) (n : nat) : M unit :=
  b ← get_broker;
  match bool_decide (connection_state_ b = StateConnected), in_flight_ b with
  | false, _ | _, [] => mret ()
  | true, req :: _ =>
    if decide (ec ≠ 0) then
      emit (Log "response_handler_actor read error, failing request: ");;
      set_exception (response_promise req) (system_error ec);;
      close
    else
      match response_handler_state_ b with
      | RespHandlerStateIdle =>
        modify_broker (set_response_handler_state RespHandlerStateReadHeader);;
        emit (Log "response_handler_actor Idle -> ReadHeader ");;
        buffer_at0 (Some (header_buffer_ b));;
        submit (OpRead HeaderBuffer (length (header_buffer_ b)))
      | RespHandlerStateReadHeader =>
        modify_broker (set_response_handler_state RespHandlerStateReadResp);;
        emit (Log "response_handler_actor ReadHeader -> ReadResponse ec:");;
        let pd := PacketDecoder_new (header_buffer_ b) in
        let '(pd, response_len) := pd_io_int32 pd in
        let '(pd, h_correlation_id) := pd_io_ResponseHeader pd in
        if negb (pd_ok pd) then
          emit (Log "response_handler_actor packet decoding error failing request: ");;
          set_exception (response_promise req) (runtime_error (pd_err_str pd));;
          close
        else if decide (correlation_id (header req) ≠ h_correlation_id) then
          emit (Log "response_handler_actor correlation_id mismatch expected: ");;
          set_exception (response_promise req)
                        (runtime_error "Correlation ID mismatch");;
          close
        else
          let response_len := wrap_int32 (response_len - 4) in
          (if decide (response_len < 0) then throw length_error else mret ());;
          let buf := new_buffer (Z.to_nat response_len) in
          modify_broker (set_response_buffer (Some buf));;
          emit (Log "response_handler_actor waiting for reponse read of ");;
          buffer_at0 (Some buf);;
          submit (OpRead ResponseBuffer (length buf))
      | RespHandlerStateReadResp =>
        modify_broker (set_response_handler_state RespHandlerStateIdle);;
        emit (Log "response_handler_actor ReadResp -> Idle ec:");;
        match response_buffer_ b with
        | None => undefined
        | Some buf =>
          if decide (n < length buf)%nat then
            emit (Log "response_handler_actor failing, not enough bytes read. wanted ");;
            set_exception (response_promise req)
                          (runtime_error "Not enough bytes read");;
            close
          else
            let pd := PacketDecoder_new buf in
            set_value (response_promise req) pd;;
            pop_front;;
            b ← get_broker;
            match in_flight_ b with
            | [] => mret ()
            | req :: _ => if sent req then self ec 0%nat else mret ()
            end
        end
      end
  end.

Fixpoint response_handler_actor_n (depth : nat) (ec : Z) (n : nat) : M unit :=
  match depth with
  | O => exhausted
  | S d => response_handler_actor_body (response_handler_actor_n d) ec n
  end.

(** The nested activation runs with the state machine in Idle and does not
    nest again (see [response_handler_actor_depth]). *)
Definition response_handler_actor : Z -> nat -> M unit :=
  response_handler_actor_n 2.

(** *** Broker::wait_for_connect

    The caller is a user thread. Whenever it lets go of [connection_mu_]
    (after [lk.unlock()], and inside [connection_cv_.wait_for]) other
    threads may move the connection state; [sched] lists, window by
    window, the state they leave behind (no entry: nobody touched it). *)
Definition others_ran (sched : list connection_state)
  : M (list connection_state) :=
  match sched with
  | [] => mret []
  | s :: rest => modify_broker (set_connection_state s);; mret rest
  end.

(** [connection_cv_.wait_for(lk, timeout, pred)]: the value of [pred] when
    the wait ends, by notification or by timeout. *)
Definition cv_wait_for (sched : list connection_state)
  (pred : Broker -> bool) : M (bool * list connection_state) :=
  rest ← others_ran sched;
  b ← get_broker;
  mret (pred b, rest).

Fixpoint wait_for_connect_n (depth : nat) (milliseconds : Z)
  (sched : list connection_state) : M synkafka_error :=
  match depth with
  | O => exhausted
  | S d =>
    emit (Log "Wait for connect to broker ");;
    b ← get_broker;
    match connection_state_ b with
    | StateConnected => mret no_error
    | StateClosed => mret network_fail
    | StateConnecting =>
      '(ok, _) ← cv_wait_for sched
         (fun b => bool_decide (connection_state_ b ≠ StateConnecting));
      if negb ok then
        emit (Log "");;
        mret network_timeout
      else
        b ← get_broker;
        if decide (connection_state_ b = StateClosed) then
          emit (Log "wait for connection failed: closed");;
          mret network_fail
        else mret no_error
    | StateInit =>
      modify_broker (set_connection_state StateConnecting);;
      emit (Log "Starting connection to broker ");;
      submit (OpResolve (identity_host b) (identity_port b));;
      rest ← others_ran sched;
      wait_for_connect_n d milliseconds rest
    end
  end.

(** The world right after the Init case has moved the state to Connecting
    and handed the resolve to the io_service. *)
Definition resolve_started (w : World) : World :=
  with_pending
    (fun p => p ++ [OpResolve (identity_host (broker w))
                              (identity_port (broker w))])
    (with_output
       (fun o => o ++ [Log "Starting connection to broker "])
       (with_broker (set_connection_state StateConnecting)
          (with_output (fun o => o ++ [Log "Wait for connect to broker "])
                       w))).

(** Every nested call but the last consumes an entry of [sched]. *)
Definition wait_for_connect (milliseconds : Z) (sched : list connection_state)
  : M synkafka_error :=
  wait_for_connect_n (2 + length sched) milliseconds sched.

(** ** The io_service side *)

(** An [async_read] into a buffer overwrites its first bytes with what
    arrived. *)
Definition fill (data old : buffer_t) : buffer_t :=
  data ++ drop (length data) old.

(** Completion of an [async_read]: the bytes are in the buffer the read
    was given, then the bound handler runs with the byte count. *)
Definition read_completion (target : buffer_id) (data : buffer_t) (ec : Z)
  : M unit :=
  match target with
  | HeaderBuffer =>
    modify_broker (fun b => set_header_buffer (fill data (header_buffer_ b)) b)
  | ResponseBuffer =>
    modify_broker
      (fun b => set_response_buffer (fill data <$> response_buffer_ b) b)
  end;;
  response_handler_actor ec (length data).

Inductive event :=
| EvCall (api_key : Z) (request_packet : buffer_t)
| EvClose
| EvWaitForConnect (milliseconds : Z)
| EvResolve (i : nat) (ec : Z) (endpoints : list endpoint)
| EvConnect (i : nat) (ec : Z)
| EvWrite (i : nat) (ec : Z) (bytes_written : nat)
| EvRead (i : nat) (ec : Z) (data : buffer_t)
| EvRun (i : nat).

(** The [i]-th outstanding operation, taken off the list. *)
Definition complete (i : nat) (w : World) : option (async_op * World) :=
  match pending w !! i with
  | Some op => Some (op, with_pending (delete i) w)
  | None => None
  end.

Definition total_size (buffers : list buffer_t) : nat :=
  length (concat buffers).

(** One event: a call from a user thread, or the completion of an
    outstanding operation with a result that operation can have (a
    successful resolve names an endpoint; a transfer without error is
    complete, one with an error is at most the requested size). [None]:
    the event is not possible in this world. *)
Definition step (e : event) (w : World) : option (outcome unit) :=
  match e with
  | EvCall k p => Some ((call k p;; mret ()) w)
  | EvClose => Some (close w)
  | EvWaitForConnect ms => Some ((wait_for_connect ms [];; mret ()) w)
  | EvResolve i ec eps =>
    match complete i w with
    | Some (OpResolve _ _, w') =>
      if decide (ec ≠ 0 ∨ eps ≠ []) then Some (handle_resolve ec eps w')
      else None
    | _ => None
    end
  | EvConnect i ec =>
    match complete i w with
    | Some (OpConnect _ next, w') => Some (handle_connect ec next w')
    | _ => None
    end
  | EvWrite i ec n =>
    match complete i w with
    | Some (OpWrite buffers, w') =>
      if decide ((n ≤ total_size buffers)%nat
                 ∧ (ec = 0 → n = total_size buffers)) then
        Some (handle_write ec n w')
      else None
    | _ => None
    end
  | EvRead i ec data =>
    match complete i w with
    | Some (OpRead target size, w') =>
      if decide ((length data ≤ size)%nat ∧ (ec = 0 → length data = size)) then
        Some (read_completion target data ec w')
      else None
    | _ => None
    end
  | EvRun i =>
    match complete i w with
    | Some (OpPost (PushRequest req), w') => Some (push_request req w')
    | Some (OpPost (ResponseHandlerActor ec n), w') =>
      Some (response_handler_actor ec n w')
    | _ => None
    end
  end.

(** A handler that throws leaves the world as it was at the throw. *)
Fixpoint run (tr : list event) (w : World) : option World :=
  match tr with
  | [] => Some w
  | e :: tr' =>
    match step e w with
    | Some (Returns _ w') | Some (Throws _ w') => run tr' w'
    | _ => None
    end
  end.

Definition reachable (host : string) (port : Z) (client : string) (w : World)
  : Prop :=
  ∃ tr, run tr (World_new host port client) = Some w.

(** ** Observations used in the statements *)

Definition ids (w : World) : list Z :=
  map (fun r => correlation_id (header r)) (in_flight_ (broker w)).

Definition future_of (w : World) (req : InFlightRequest)
  : option future_state :=
  shared w !! response_promise req.

Definition final_world {A} (o : outcome A) : option World :=
  match o with
  | Returns _ w | Throws _ w => Some w
  | _ => None
  end.

Definition ctr (w : World) : Z := next_correlation_id_ (broker w).

(** What one handler run may do to the counter and the queued ids: leave
    the counter and drop entries from the front, or enqueue once. *)
Definition ids_evolve (w w' : World) : Prop :=
  (ctr w' = ctr w ∧ ids w' `suffix_of` ids w)
  ∨ (ctr w' = wrap_int32 (ctr w + 1) ∧ ids w' = ids w ++ [ctr w]).

(** The queue holds the last [length l] values the counter [c] took. *)
Definition window (c : Z) (l : list Z) : Prop :=
  ∀ i x, l !! i = Some x ->
         x = wrap_int32 (c - (Z.of_nat (length l) - Z.of_nat i)).

Definition ids_inv (w : World) : Prop :=
  in_int32 (ctr w) ∧ window (ctr w) (ids w).

Definition strictly_increasing (l : list Z) : Prop :=
  ∀ i j x y, (i < j)%nat -> l !! i = Some x -> l !! j = Some y -> x < y.

(** *** What the promise invariant looks at *)

(** Promise handles of the requests whose [push_request] is still posted,
    and the number of resolve or connect operations outstanding. *)
Fixpoint posted_handles (ops : list async_op) : list nat :=
  match ops with
  | [] => []
  | OpPost (PushRequest r) :: ops => response_promise r :: posted_handles ops
  | _ :: ops => posted_handles ops
  end.

Fixpoint connect_ops (ops : list async_op) : nat :=
  match ops with
  | [] => 0
  | OpResolve _ _ :: ops | OpConnect _ _ :: ops => S (connect_ops ops)
  | _ :: ops => connect_ops ops
  end.

(** Connection state, queued handles, posted handles, connect operations. *)
Definition conn_state (w : World) : connection_state :=
  connection_state_ (broker w).
Definition queued_handles (w : World) : list nat :=
  map response_promise (in_flight_ (broker w)).
Definition posted (w : World) : list nat := posted_handles (pending w).
Definition connect_count (w : World) : nat := connect_ops (pending w).

(** Handles are not shared; a posted request's promise is unresolved; a
    queued request's promise exists and is unresolved unless the broker is
    Closed with no connect attempt left; at most one resolve or connect is
    outstanding, none once Connected. *)
Record promises_inv (w : World) : Prop := mk_promises_inv {
  pi_nodup : NoDup (queued_handles w ++ posted w);
  pi_posted : ∀ h, h ∈ posted w -> shared w !! h = Some Pending;
  pi_known : ∀ h, h ∈ queued_handles w -> is_Some (shared w !! h);
  pi_ops : (connect_count w ≤ 1)%nat;
  pi_idle :
    conn_state w = StateInit ∨ conn_state w = StateConnected ->
    connect_count w = 0%nat;
  pi_open :
    conn_state w ≠ StateClosed ∨ connect_count w ≠ 0%nat ->
    ∀ h, h ∈ queued_handles w -> shared w !! h = Some Pending;
}.

(** What one event can do to those observations. *)
Inductive trans (w w' : World) : Prop :=
| trans_quiet :
    conn_state w' = conn_state w ->
    queued_handles w' = queued_handles w ->
    posted w' = posted w ->
    connect_count w' = connect_count w ->
    shared w' = shared w ->
    trans w w'
| trans_call f :
    conn_state w' = conn_state w ->
    queued_handles w' = queued_handles w ->
    posted w' = posted w ++ [f] ->
    connect_count w' = connect_count w ->
    shared w !! f = None ->
    shared w' = <[f:=Pending]> (shared w) ->
    trans w w'
| trans_close :
    conn_state w' = StateClosed ->
    queued_handles w' = queued_handles w ->
    posted w' = posted w ->
    (connect_count w' ≤ connect_count w)%nat ->
    shared w' = shared w ->
    trans w w'
| trans_start :
    conn_state w = StateInit ->
    conn_state w' = StateConnecting ->
    queued_handles w' = queued_handles w ->
    posted w' = posted w ->
    connect_count w' = S (connect_count w) ->
    shared w' = shared w ->
    trans w w'
| trans_connected :
    conn_state w' = StateConnected ->
    queued_handles w' = queued_handles w ->
    posted w' = posted w ->
    connect_count w = S (connect_count w') ->
    shared w' = shared w ->
    trans w w'
| trans_fail_close h rest v :
    conn_state w = StateConnected ->
    conn_state w' = StateClosed ->
    queued_handles w = h :: rest ->
    queued_handles w' = queued_handles w ->
    posted w' = posted w ->
    connect_count w' = connect_count w ->
    shared w !! h = Some Pending ->
    v ≠ Pending ->
    shared w' = <[h:=v]> (shared w) ->
    trans w w'
| trans_pop h rest v :
    conn_state w' = conn_state w ->
    queued_handles w = h :: rest ->
    queued_handles w' = rest ->
    posted w' = posted w ->
    connect_count w' = connect_count w ->
    shared w !! h = Some Pending ->
    v ≠ Pending ->
    shared w' = <[h:=v]> (shared w) ->
    trans w w'
| trans_drop h :
    conn_state w = StateClosed ->
    conn_state w' = StateClosed ->
    queued_handles w' = queued_handles w ->
    posted w ≡ₚ h :: posted w' ->
    connect_count w' = connect_count w ->
    shared w' = shared w
    ∨ shared w' = <[h:=Failed (future_error broken_promise)]> (shared w) ->
    trans w w'
| trans_push h :
    conn_state w ≠ StateClosed ->
    conn_state w' = conn_state w ->
    queued_handles w' = queued_handles w ++ [h] ->
    posted w ≡ₚ h :: posted w' ->
    connect_count w' = connect_count w ->
    shared w' = shared w ->
    trans w w'.

(** *** What the sent-flag invariant looks at *)

(** The requests whose [push_request] is still posted. *)
Fixpoint posted_requests (ops : list async_op) : list InFlightRequest :=
  match ops with
  | [] => []
  | OpPost (PushRequest r) :: ops => r :: posted_requests ops
  | _ :: ops => posted_requests ops
  end.

Definition unsent (r : InFlightRequest) : Prop := sent r = false.

(** No request behind the head of the queue, and none on its way to the
    queue, is marked sent. *)
Definition head_only_sent (w : World) : Prop :=
  Forall unsent (tail (in_flight_ (broker w)))
  ∧ Forall unsent (posted_requests (pending w)).

(** ** Sample worlds *)

Definition sample_endpoint : endpoint := ("kafka1", 9092).

Definition sample_header (id : Z) : RequestHeader :=
  mkRequestHeader 18 0 id "c1".

(** A request as the queue holds it: correlation id [id], promise [p]. *)
Definition sample_request (id : Z) (p : nat) (is_sent : bool)
  : InFlightRequest :=
  mkInFlightRequest (sample_header id) [] is_sent p.

Definition sample_shared : gmap nat future_state :=
  list_to_map [(0, Pending); (1, Pending); (2, Pending); (3, Pending)]%nat.

(** A broker in connection state [st] with the given queue, reader state,
    buffers and outstanding operations; the promises [0 .. 3] are
    unfulfilled. *)
Definition sample_world (st : connection_state) (q : list InFlightRequest)
  (rs : resp_handler_state) (hb : buffer_t) (rb : option buffer_t)
  (ops : list async_op) : World :=
  mkWorld (mkBroker "c1" "kafka1" 9092 (1 + Z.of_nat (length q)) q st rs hb rb)
          sample_shared ops [].

Definition hb0 : buffer_t := new_buffer 8.

(** A client id one byte too long for a 16-bit signed length prefix. *)
Definition long_client_id : string :=
  String.string_of_list_ascii
    (replicate (Z.to_nat 32768) (Ascii.ascii_of_nat 120)).

Definition unencodable_request : InFlightRequest :=
  mkInFlightRequest (mkRequestHeader 18 0 1 long_client_id) [] false 0.

(** From construction to Connected. *)
Definition connect_trace : list event :=
  [EvWaitForConnect 0; EvResolve 0 0 [sample_endpoint]; EvConnect 0 0].

(** Connect, then two calls whose posted handlers run. *)
Definition two_requests_trace : list event :=
  connect_trace ++ [EvCall 18 []; EvRun 0; EvCall 18 []; EvRun 1].

(** Connected, nothing queued, nothing outstanding, counter at [c]. *)
Definition quiet (c : Z) (w : World) : Prop :=
  connection_state_ (broker w) = StateConnected
  ∧ in_flight_ (broker w) = []
  ∧ pending w = []
  ∧ next_correlation_id_ (broker w) = c
  ∧ client_id_ (broker w) = "c1".

(** Still connecting, [n] requests queued, only the resolve outstanding. *)
Definition stalled (n : Z) (w : World) : Prop :=
  connection_state_ (broker w) = StateConnecting
  ∧ Z.of_nat (length (in_flight_ (broker w))) = n
  ∧ pending w = [OpResolve "kafka1" 9092].

(** Construction, connection to the first endpoint, one call and the run
    of its posted [push_request]. *)
Definition first_request_trace (ms : Z) (eps : list endpoint) (k : Z)
  (body : buffer_t) : list event :=
  [EvWaitForConnect ms; EvResolve 0 0 eps; EvConnect 0 0;
   EvCall k body; EvRun 0].

(** The same, followed by the write completing, the reader starting, and
    the server's answer arriving: header, then payload. *)
Definition round_trip_trace (ms : Z) (eps : list endpoint) (k : Z)
  (body hb payload : buffer_t) : list event :=
  first_request_trace ms eps k body
  ++ [EvWrite 0 0 (total_size [hb; body]); EvRun 0;
      EvRead 0 0 (be32 (4 + Z.of_nat (length payload)) ++ be32 1);
      EvRead 0 0 payload].

(** Connect, one request written, the reader waiting for its header. *)
Definition header_read_trace : list event :=
  connect_trace ++ [EvCall 18 []; EvRun 0; EvWrite 0 0 16; EvRun 0].

(** Connect, two requests pushed back to back (the head is written twice),
    the first write completes, the reader starts and its read fails: the
    head is failed and left queued, the broker is Closed, and the second
    write of the head is still outstanding. *)
Definition stale_write_trace : list event :=
  two_requests_trace ++ [EvWrite 0 0 16; EvRun 1; EvRead 1 104 []].

(** The same start, but the header of a one-byte response arrives: the
    reader is in ReadResp with two requests queued. *)
Definition body_read_trace : list event :=
  two_requests_trace
  ++ [EvWrite 0 0 16; EvRun 1; EvRead 1 0 (be32 5 ++ be32 1)].

(** Connect, one request whose write fails. *)
Definition failed_write_trace : list event :=
  connect_trace ++ [EvCall 18 []; EvRun 0; EvWrite 0 104 0].

(** ** Proof support *)

#[local] Arguments pd_io_int32 : simpl never.
#[local] Arguments pd_io_ResponseHeader : simpl never.

Ltac unfold_M :=
  unfold is_connected, is_closed in *;
  unfold mbind, mret, M_bind, M_ret, get_broker, get_world, modify_broker,
    emit, submit, throw, undefined, exhausted in *.

Ltac crack :=
  repeat first
    [ progress cbn
    | case_bool_decide; try congruence
    | case_decide; try congruence; try lia ].

Ltac open_world w :=
  let b := fresh "b" in
  destruct w as [b ? ? ?]; destruct b; unfold future_of in *; simpl in *; subst.

Lemma byte_to_of_Z z : byte_to_Z (byte_of_Z z) = z mod 256.
Proof.
  unfold byte_to_Z, byte_of_Z.
  assert (0 <= z mod 256 < 256) by (apply Z.mod_pos_bound; lia).
  destruct (Byte.of_N (Z.to_N (z mod 256))) as [b|] eqn:E; simpl.
  - apply Byte.to_of_N in E. rewrite E. lia.
  - apply Byte.of_N_None_iff in E. lia.
Qed.

Lemma wrap_int32_id z : in_int32 z -> wrap_int32 z = z.
Proof.
  unfold in_int32, int32_min, int32_max, wrap_int32. intros.
  rewrite Z.mod_small; lia.
Qed.

Lemma wrap_int32_range z : in_int32 (wrap_int32 z).
Proof.
  unfold in_int32, int32_min, int32_max, wrap_int32.
  pose proof (Z.mod_pos_bound (z + 2 ^ 31) (2 ^ 32)). lia.
Qed.

Lemma be32_value z :
  in_int32 z ->
  wrap_int32 (byte_to_Z (byte_of_Z (Z.shiftr z 24)) * 2 ^ 24
              + byte_to_Z (byte_of_Z (Z.shiftr z 16)) * 2 ^ 16
              + byte_to_Z (byte_of_Z (Z.shiftr z 8)) * 2 ^ 8
              + byte_to_Z (byte_of_Z z)) = z.
Proof.
  intros Hz. rewrite !byte_to_of_Z, !Z.shiftr_div_pow2 by lia.
  unfold in_int32, int32_min, int32_max, wrap_int32 in *.
  change (2 ^ 24) with 16777216. change (2 ^ 16) with 65536.
  change (2 ^ 8) with 256. change (2 ^ 31) with 2147483648 in *.
  change (2 ^ 32) with 4294967296.
  Z.div_mod_to_equations. lia.
Qed.

(** The 8 staged bytes [be32 len || be32 c] decode to [len] and [c]. *)
Lemma decode_header_be32 len c :
  in_int32 len -> in_int32 c ->
  ∃ pd1 pd2,
    pd_io_int32 (PacketDecoder_new (be32 len ++ be32 c)) = (pd1, len)
    ∧ pd_io_ResponseHeader pd1 = (pd2, c)
    ∧ pd_ok pd2 = true.
Proof.
  intros Hl Hc. eexists _, _. split; [|split].
  - unfold pd_io_int32. cbn. by rewrite be32_value.
  - unfold pd_io_ResponseHeader, pd_io_int32. cbn. by rewrite be32_value.
  - done.
Qed.

Lemma fill_exact data old : length data = length old -> fill data old = data.
Proof.
  intros H. unfold fill. rewrite H, drop_all. apply app_nil_r.
Qed.

#[local] Arguments be32 : simpl never.
#[local] Arguments fill : simpl never.
#[local] Arguments wrap_int32 : simpl never.
#[local] Arguments new_buffer : simpl never.

Ltac break_match :=
  match goal with
  | |- context [match ?x with _ => _ end] =>
    lazymatch x with
    | context [match _ with _ => _ end] => fail
    | _ => destruct x eqn:?
    end
  | H : context [match ?x with _ => _ end] |- _ =>
    lazymatch x with
    | context [match _ with _ => _ end] => fail
    | _ => destruct x eqn:?
    end
  end.

Ltac unfold_actor :=
  unfold response_handler_actor; cbn [response_handler_actor_n];
  unfold response_handler_actor_body; unfold_M.

Ltac unfold_handlers :=
  unfold step, complete, read_completion, call, push_request,
    handle_resolve, handle_connect, handle_write,
    response_handler_actor, wait_for_connect in *;
  cbn [response_handler_actor_n wait_for_connect_n length Nat.add] in *;
  unfold response_handler_actor_body in *;
  unfold write_next_request, close, set_value, set_exception, pop_front,
    buffer_at0, cv_wait_for in *;
  unfold promise_set, promise_destroy, others_ran in *;
  unfold_M.

Ltac grind :=
  repeat first
    [ progress (cbn in *)
    | progress simplify_eq
    | case_bool_decide
    | case_decide
    | break_match ].

(** ** The reader's recursion *)

Lemma body_ext (f g : Z -> nat -> M unit) ec n w :
  (forall ec' n' w',
      response_handler_state_ (broker w') = RespHandlerStateIdle ->
      f ec' n' w' = g ec' n' w') ->
  response_handler_actor_body f ec n w = response_handler_actor_body g ec n w.
Proof.
  intros Hfg. unfold response_handler_actor_body. unfold_M.
  destruct (bool_decide _); [|done].
  destruct (in_flight_ (broker w)) as [|req rest] eqn:Hq; [done|].
  destruct (decide (ec ≠ 0)); [done|].
  destruct (response_handler_state_ (broker w)); [done|done|].
  cbn. destruct (response_buffer_ (broker w)) as [buf|]; [|done].
  destruct (decide (n < length buf)%nat); [done|].
  unfold set_value, promise_set, pop_front. unfold_M. cbn.
  destruct (shared w !! response_promise req) as [[]|]; try done.
  cbn. rewrite Hq. cbn. unfold promise_destroy. cbn.
  rewrite lookup_insert_eq. cbn.
  destruct rest as [|r2 rest]; [done|]. destruct (sent r2); [|done].
  apply Hfg. done.
Qed.

Lemma body_idle (f g : Z -> nat -> M unit) ec n w :
  response_handler_state_ (broker w) = RespHandlerStateIdle ->
  response_handler_actor_body f ec n w = response_handler_actor_body g ec n w.
Proof.
  intros Hs. unfold response_handler_actor_body. unfold_M. rewrite Hs. done.
Qed.

(** Two levels of the recursion are all the reader ever uses: a larger
    budget changes nothing, and the budget is never exhausted. *)
Lemma response_handler_actor_depth d ec n w :
  response_handler_actor_n (2 + d) ec n w = response_handler_actor ec n w.
Proof.
  unfold response_handler_actor. cbn [Nat.add response_handler_actor_n].
  apply body_ext. intros ec' n' w' Hs. by apply body_idle.
Qed.

Lemma response_handler_actor_terminates ec n w :
  response_handler_actor ec n w ≠ Exhausted.
Proof.
  destruct w as [b s p o]. destruct b. unfold_handlers. grind; done.
Qed.

(** ** The reader when there is nothing to read for *)

(** C10: [response_handler_actor], run for any completion [(ec, n)], error
    code or not, while the connection state is not Connected or the
    in-flight queue is empty, returns at once with the world as it was: no
    promise is touched, no broker field changes, no read is issued and
    nothing is logged. *)
Theorem response_handler_actor_inert ec n w :
  connection_state_ (broker w) ≠ StateConnected ∨ in_flight_ (broker w) = [] ->
  response_handler_actor ec n w = Returns () w.
Proof.
  intros H. unfold_actor.
  destruct H as [H|H].
  - rewrite bool_decide_eq_false_2 by done. done.
  - rewrite H. by destruct (bool_decide _).
Qed.

(** ** Correlation id check *)

(** C6: in the ReadHeader step of a connected broker, when the staged
    header decodes to a correlation id [h] different from the one assigned
    to the head request, the head's promise is failed with
    runtime_error("Correlation ID mismatch"), the connection state becomes
    Closed, and the queue is exactly what it was (head not popped); no
    other promise changes and no operation is issued. The head's promise
    is taken unresolved, as it is for every queued request of a broker
    that is not Closed ([reachable_queue_unresolved]). *)
Theorem correlation_mismatch_fails_head_and_closes w req rest n pd1 len pd2 h :
  connection_state_ (broker w) = StateConnected ->
  in_flight_ (broker w) = req :: rest ->
  response_handler_state_ (broker w) = RespHandlerStateReadHeader ->
  pd_io_int32 (PacketDecoder_new (header_buffer_ (broker w))) = (pd1, len) ->
  pd_io_ResponseHeader pd1 = (pd2, h) ->
  pd_ok pd2 = true ->
  h ≠ correlation_id (header req) ->
  future_of w req = Some Pending ->
  ∃ w', response_handler_actor 0 n w = Returns () w'
        ∧ future_of w' req
          = Some (Failed (runtime_error "Correlation ID mismatch"))
        ∧ connection_state_ (broker w') = StateClosed
        ∧ in_flight_ (broker w') = req :: rest
        ∧ (∀ p, p ≠ response_promise req -> shared w' !! p = shared w !! p)
        ∧ pending w' = pending w.
Proof.
  intros Hc Hq Hs H1 H2 Hok Hne Hp. open_world w.
  unfold_actor. cbn. rewrite H1, H2, Hok. crack.
  unfold set_exception, promise_set, close. unfold_M. cbn. rewrite Hp. crack.
  eexists. split; [done|]. cbn. rewrite lookup_insert_eq.
  repeat split; try done. intros p Hpne. by rewrite lookup_insert_ne.
Qed.

(** ** Write completions *)

(** C5, as the code has it: [handle_write] on a non-empty queue. Without
    error the head's [sent] flag is set, no promise changes, the connection
    state is what it was, and the reader is posted to the strand exactly
    when its state was Idle. With an error code [ec] the outcome depends on
    the head's promise, a one-shot slot. Unresolved: it is failed with
    system_error(ec), the head is popped, the connection state is what it
    was (it does not become Closed) and nothing is issued. Already
    resolved (the reader failed the head and closed the broker, leaving it
    queued, while a write of it was still outstanding): [set_exception]
    throws future_error(promise_already_satisfied) out of the handler; the
    head keeps what it held and is not popped, and nothing else changes. *)
Theorem handle_write_by_head_promise w req rest ec n :
  in_flight_ (broker w) = req :: rest ->
  (ec ≠ 0 -> future_of w req = Some Pending ->
   ∃ w', handle_write ec n w = Returns () w'
         ∧ future_of w' req = Some (Failed (system_error ec))
         ∧ in_flight_ (broker w') = rest
         ∧ connection_state_ (broker w') = connection_state_ (broker w)
         ∧ pending w' = pending w)
  ∧ (ec ≠ 0 -> ∀ v, future_of w req = Some v -> v ≠ Pending ->
     ∃ w', handle_write ec n w
           = Throws (future_error promise_already_satisfied) w'
           ∧ future_of w' req = Some v
           ∧ shared w' = shared w
           ∧ in_flight_ (broker w') = req :: rest
           ∧ connection_state_ (broker w') = connection_state_ (broker w)
           ∧ pending w' = pending w)
  ∧ (ec = 0 ->
     ∃ w', handle_write ec n w = Returns () w'
           ∧ in_flight_ (broker w') = set_sent true req :: rest
           ∧ shared w' = shared w
           ∧ connection_state_ (broker w') = connection_state_ (broker w)
           ∧ pending w'
             = if decide (response_handler_state_ (broker w)
                          = RespHandlerStateIdle)
               then pending w ++ [OpPost (ResponseHandlerActor 0 0)]
               else pending w).
Proof.
  intros Hq. split; [|split].
  - intros Hec Hp. open_world w. unfold handle_write. unfold_M. crack.
    unfold set_exception, promise_set, pop_front, promise_destroy. unfold_M.
    cbn. rewrite Hp. cbn. rewrite lookup_insert_eq. cbn.
    eexists. split; [done|]. cbn. by rewrite lookup_insert_eq.
  - intros Hec v Hp Hv. open_world w. unfold handle_write. unfold_M. crack.
    unfold set_exception, promise_set. unfold_M. cbn. rewrite Hp.
    destruct v; [done| |]; cbn; (eexists; split; [done|]); by cbn.
  - intros ->. open_world w. unfold handle_write. unfold_M. crack; eauto 10.
Qed.

(** ** Header encode failure *)

(** C4, as the code has it: when the head request is not yet sent and
    its header does not encode, [write_next_request] only logs its entry
    line and returns. The promise is not failed, the request stays at the
    head of the queue, nothing is written. *)
Theorem write_next_request_encode_failure w req rest :
  in_flight_ (broker w) = req :: rest ->
  sent req = false ->
  encode_header (header req) (length (packet req)) = None ->
  write_next_request w
  = Returns () (with_output (fun o => o ++ [Log "write_next_request"]) w).
Proof.
  intros Hq Hs He. unfold write_next_request. unfold_M. cbn.
  rewrite Hq, Hs, He. done.
Qed.

(** ** Submission *)

(** C8: [push_request]. On a Closed broker the request is dropped: the
    broker (queue, counter and all) is untouched, nothing is issued, only
    the entry line is logged, and the request's promise, if unresolved,
    is left broken (future_error(broken_promise)); other promises are
    untouched. Otherwise the request gets the counter's value as
    correlation id, the counter advances by one (32-bit wrap-around), the
    request is appended at the tail of the queue, and
    [write_next_request] runs on that world exactly when the state is
    Connected (its entry line is then the only evidence in the log). *)
Theorem push_request_spec w req :
  (connection_state_ (broker w) = StateClosed ->
   ∃ w', push_request req w = Returns () w'
         ∧ broker w' = broker w
         ∧ pending w' = pending w
         ∧ output w' = output w ++ [Log "push_request"]
         ∧ (∀ p, p ≠ response_promise req -> shared w' !! p = shared w !! p)
         ∧ (future_of w req = Some Pending ->
            future_of w' req = Some (Failed (future_error broken_promise))))
  ∧ (connection_state_ (broker w) ≠ StateClosed ->
     let req' := set_correlation_id (next_correlation_id_ (broker w)) req in
     let enqueued :=
       with_output (fun o => o ++ [Log "push_request"])
         (with_broker
            (fun b => set_in_flight (in_flight_ b ++ [req'])
                        (set_next_correlation_id
                           (wrap_int32 (next_correlation_id_ b + 1)) b)) w) in
     ∃ w', push_request req w = Returns () w'
           ∧ correlation_id (header req') = next_correlation_id_ (broker w)
           ∧ next_correlation_id_ (broker w')
             = wrap_int32 (next_correlation_id_ (broker w) + 1)
           ∧ in_flight_ (broker w') = in_flight_ (broker w) ++ [req']
           ∧ shared w' = shared w
           ∧ (connection_state_ (broker w) = StateConnected ->
              write_next_request enqueued = Returns () w')
           ∧ (connection_state_ (broker w) ≠ StateConnected ->
              w' = enqueued)
           ∧ (In (Log "write_next_request")
                 (drop (length (output w)) (output w'))
              <-> connection_state_ (broker w) = StateConnected)).
Proof.
  split.
  - intros Hc. unfold push_request, promise_destroy. unfold_M. cbn.
    rewrite Hc. crack. unfold future_of. cbn.
    destruct (shared w !! response_promise req) as [[]|] eqn:Hp; cbn;
      (eexists; split; [reflexivity|]); cbn; repeat split; try done.
    + intros p Hpne. by rewrite lookup_insert_ne.
    + intros _. by rewrite lookup_insert_eq.
  - intros Hc. cbn zeta. unfold push_request, write_next_request. unfold_M.
    cbn. rewrite bool_decide_eq_false_2 by done. cbn.
    destruct (decide (connection_state_ (broker w) = StateConnected)) as [Hk|Hk].
    + rewrite Hk. crack.
      destruct (in_flight_ (broker w) ++ _) as [|hd tl] eqn:Hq.
      { by destruct (in_flight_ (broker w)). }
      assert (Hlog : ∀ o : list effect,
                 In (Log "write_next_request")
                    (drop (length (output w))
                       ((output w ++ [Log "push_request"])
                          ++ [Log "write_next_request"] ++ o))).
      { intros o. rewrite <- app_assoc, drop_app_length. cbn. auto. }
      destruct (sent hd); [|destruct (encode_header _ _)]; cbn;
        (eexists; split; [done|]); cbn; rewrite ?Hq;
        repeat split; try done; intros _;
        try apply (Hlog []).
    + rewrite bool_decide_eq_false_2 by done. cbn.
      eexists; split; [done|]. cbn. repeat split; try done.
      rewrite drop_app_length. cbn. intros [H|[]]. discriminate.
Qed.

(** ** Reading the body *)

(** C7, as the code has it: in the ReadResp step of a connected broker
    (its head promise unresolved, see [reachable_queue_unresolved]), for
    a completion [(ec, n)] of the body read, [n] at most the requested
    size as for every exact-length read: an error code fails the head
    with system_error(ec) and closes the connection, whatever [n];
    without error code, [n] different from the requested size fails the
    head with runtime_error("Not enough bytes read") and closes the
    connection; without error code and with [n] equal to the requested
    size the head is fulfilled with a decoder over the body buffer and
    popped; and the head is fulfilled with a decoder only in that last
    case. *)
Theorem read_body_completion w req rest buf ec n :
  connection_state_ (broker w) = StateConnected ->
  in_flight_ (broker w) = req :: rest ->
  response_handler_state_ (broker w) = RespHandlerStateReadResp ->
  response_buffer_ (broker w) = Some buf ->
  future_of w req = Some Pending ->
  (n ≤ length buf)%nat ->
  (ec ≠ 0 ->
   ∃ w', response_handler_actor ec n w = Returns () w'
         ∧ future_of w' req = Some (Failed (system_error ec))
         ∧ connection_state_ (broker w') = StateClosed
         ∧ in_flight_ (broker w') = req :: rest)
  ∧ (ec = 0 -> n ≠ length buf ->
     ∃ w', response_handler_actor ec n w = Returns () w'
           ∧ future_of w' req
             = Some (Failed (runtime_error "Not enough bytes read"))
           ∧ connection_state_ (broker w') = StateClosed
           ∧ in_flight_ (broker w') = req :: rest)
  ∧ (ec = 0 -> n = length buf ->
     ∃ w', final_world (response_handler_actor ec n w) = Some w'
           ∧ future_of w' req = Some (Ready (PacketDecoder_new buf))
           ∧ connection_state_ (broker w') = StateConnected
           ∧ in_flight_ (broker w') = rest)
  ∧ (∀ w' pd, final_world (response_handler_actor ec n w) = Some w' ->
              future_of w' req = Some (Ready pd) ->
              ec = 0 ∧ n = length buf).
Proof.
  intros Hc Hq Hs Hb Hp Hn.
  assert (Herr : ec ≠ 0 ->
    ∃ w', response_handler_actor ec n w = Returns () w'
          ∧ future_of w' req = Some (Failed (system_error ec))
          ∧ connection_state_ (broker w') = StateClosed
          ∧ in_flight_ (broker w') = req :: rest).
  { intros Hec. open_world w.
    unfold_actor. crack.
    unfold set_exception, promise_set, close. unfold_M. cbn. rewrite Hp. crack.
    eexists. split; [done|]. cbn. by rewrite lookup_insert_eq. }
  assert (Hshort : ec = 0 -> n ≠ length buf ->
    ∃ w', response_handler_actor ec n w = Returns () w'
          ∧ future_of w' req
            = Some (Failed (runtime_error "Not enough bytes read"))
          ∧ connection_state_ (broker w') = StateClosed
          ∧ in_flight_ (broker w') = req :: rest).
  { intros -> Hne. open_world w.
    unfold_actor. crack.
    unfold set_exception, promise_set, close. unfold_M. cbn. rewrite Hp. crack.
    eexists. split; [done|]. cbn. by rewrite lookup_insert_eq. }
  assert (Hfull : ec = 0 -> n = length buf ->
    ∃ w', final_world (response_handler_actor ec n w) = Some w'
          ∧ future_of w' req = Some (Ready (PacketDecoder_new buf))
          ∧ connection_state_ (broker w') = StateConnected
          ∧ in_flight_ (broker w') = rest).
  { intros -> ->. open_world w.
    unfold_actor. crack.
    unfold set_value, promise_set, pop_front, promise_destroy. unfold_M.
    cbn. rewrite Hp. cbn. rewrite lookup_insert_eq. cbn.
    destruct rest as [|r2 rest].
    { eexists. split; [done|]. cbn. by rewrite lookup_insert_eq. }
    destruct (sent r2).
    - crack. destruct header_buffer_0; cbn;
        (eexists; split; [done|]); cbn; by rewrite lookup_insert_eq.
    - eexists. split; [done|]. cbn. by rewrite lookup_insert_eq. }
  split; [exact Herr|]. split; [exact Hshort|]. split; [exact Hfull|].
  intros w' pd Hw Hf. destruct (decide (ec = 0)) as [Hec|Hec].
  - split; [done|]. destruct (decide (n = length buf)) as [|Hne]; [done|].
    destruct (Hshort Hec Hne) as (w1 & Hr & Hf1 & _). rewrite Hr in Hw.
    cbn in Hw. congruence.
  - destruct (Herr Hec) as (w1 & Hr & Hf1 & _). rewrite Hr in Hw.
    cbn in Hw. congruence.
Qed.

(** C2, as the code has it: when the reader completes a response and
    another request is queued behind it, the head is fulfilled and
    popped; if the new head has [sent = true] the reader is back in
    ReadHeader with a read of the header buffer issued; if the new head
    has [sent = false] the reader is Idle and nothing at all is issued:
    the writer is not called, no write is outstanding for the new head.
    The promise of the request being completed is taken unresolved
    ([reachable_queue_unresolved]). *)
Theorem reader_after_completed_response w req r2 rest buf n :
  connection_state_ (broker w) = StateConnected ->
  in_flight_ (broker w) = req :: r2 :: rest ->
  response_handler_state_ (broker w) = RespHandlerStateReadResp ->
  response_buffer_ (broker w) = Some buf ->
  ¬ (n < length buf)%nat ->
  future_of w req = Some Pending ->
  header_buffer_ (broker w) ≠ [] ->
  ∃ w', response_handler_actor 0 n w = Returns () w'
        ∧ future_of w' req = Some (Ready (PacketDecoder_new buf))
        ∧ in_flight_ (broker w') = r2 :: rest
        ∧ (sent r2 = true ->
           response_handler_state_ (broker w') = RespHandlerStateReadHeader
           ∧ pending w'
             = pending w
               ++ [OpRead HeaderBuffer (length (header_buffer_ (broker w)))])
        ∧ (sent r2 = false ->
           response_handler_state_ (broker w') = RespHandlerStateIdle
           ∧ pending w' = pending w
           ∧ output w'
             = output w ++ [Log "response_handler_actor ReadResp -> Idle ec:"]).
Proof.
  intros Hc Hq Hs Hb Hn Hp Hh. open_world w.
  unfold_actor. crack.
  unfold set_value, promise_set, pop_front, promise_destroy. unfold_M.
  cbn. rewrite Hp. cbn. rewrite lookup_insert_eq. cbn.
  destruct (sent r2) eqn:Hsent.
  - crack. destruct header_buffer_0 as [|x xs]; [done|]. cbn.
    eexists. split; [done|]. cbn. rewrite lookup_insert_eq. by repeat split.
  - eexists. split; [done|]. cbn. rewrite lookup_insert_eq. by repeat split.
Qed.

(** ** A whole response, off the wire *)

(** C1, as the code has it at K = 0: with the header read outstanding on
    a connected broker whose head carries correlation id [c], the arrival
    of [be32 4 || be32 c], a response with an empty body, makes the
    reader allocate an empty body buffer and then throw std::out_of_range
    from [response_buffer_->at(0)]. No promise is fulfilled, the head
    stays queued, no body read is issued, and the reader is left in
    ReadResp. *)
Theorem empty_body_response_throws w i req rest :
  pending w !! i = Some (OpRead HeaderBuffer 8) ->
  length (header_buffer_ (broker w)) = 8%nat ->
  connection_state_ (broker w) = StateConnected ->
  in_flight_ (broker w) = req :: rest ->
  response_handler_state_ (broker w) = RespHandlerStateReadHeader ->
  in_int32 (correlation_id (header req)) ->
  ∃ w', step (EvRead i 0 (be32 4 ++ be32 (correlation_id (header req)))) w
        = Some (Throws out_of_range w')
        ∧ shared w' = shared w
        ∧ in_flight_ (broker w') = req :: rest
        ∧ connection_state_ (broker w') = StateConnected
        ∧ response_handler_state_ (broker w') = RespHandlerStateReadResp
        ∧ response_buffer_ (broker w') = Some []
        ∧ pending w' = delete i (pending w).
Proof.
  intros Hop Hlen Hc Hq Hs Hid.
  destruct (decode_header_be32 4 (correlation_id (header req)))
    as (pd1 & pd2 & H1 & H2 & Hok); [by compute|done|].
  assert (Hd : length (be32 4 ++ be32 (correlation_id (header req))) = 8%nat)
    by done.
  revert H1 Hd. generalize (be32 4 ++ be32 (correlation_id (header req))).
  intros data H1 Hd. open_world w.
  unfold step, complete. cbn. rewrite Hop. cbn.
  rewrite decide_True by (split; [lia|done]).
  unfold read_completion. unfold_actor. cbn.
  rewrite fill_exact by congruence.
  rewrite H1, H2, Hok.
  change (wrap_int32 (4 - 4)) with 0. unfold new_buffer. crack.
  eexists. split; [done|]. done.
Qed.

(** ** Waiting for the connection *)

Lemma wait_for_connect_n_settled d ms sched w :
  connection_state_ (broker w) ≠ StateInit ->
  wait_for_connect_n (S d) ms sched w = wait_for_connect_n 1 ms sched w
  ∧ wait_for_connect_n 1 ms sched w ≠ Exhausted.
Proof.
  intros Hs. cbn [wait_for_connect_n]. unfold cv_wait_for, others_ran.
  unfold_M. cbn.
  destruct (connection_state_ (broker w)) eqn:Hc; try done.
  destruct sched as [|s rest]; cbn.
  - rewrite Hc. cbn. by repeat case_bool_decide.
  - destruct s; cbn; repeat case_bool_decide; try done;
      repeat case_decide; done.
Qed.

Lemma wait_for_connect_n_init d ms sched w :
  connection_state_ (broker w) = StateInit ->
  wait_for_connect_n (S d) ms sched w
  = (rest ← others_ran sched; wait_for_connect_n d ms rest)
      (resolve_started w).
Proof.
  intros Hi. cbn [wait_for_connect_n]. unfold_M. cbn. rewrite Hi.
  reflexivity.
Qed.

(** The budget [2 + length sched] is enough for every interleaving, and a
    larger one gives the same result. *)
Lemma wait_for_connect_depth ms sched : ∀ d w,
  wait_for_connect_n (2 + length sched + d) ms sched w
  = wait_for_connect ms sched w
  ∧ wait_for_connect ms sched w ≠ Exhausted.
Proof.
  unfold wait_for_connect.
  induction sched as [|s rest IH]; intros d w.
  - cbn [length Nat.add].
    destruct (decide (connection_state_ (broker w) = StateInit)) as [Hi|Hi].
    + rewrite !wait_for_connect_n_init by done. unfold others_ran.
      unfold_M.
      destruct (wait_for_connect_n_settled d ms [] (resolve_started w))
        as [-> Hne]; [done|].
      done.
    + destruct (wait_for_connect_n_settled (S d) ms [] w Hi) as [-> _].
      destruct (wait_for_connect_n_settled 1 ms [] w Hi) as [-> Hne].
      done.
  - cbn [length Nat.add].
    destruct (decide (connection_state_ (broker w) = StateInit)) as [Hi|Hi].
    + rewrite !wait_for_connect_n_init by done. unfold others_ran.
      unfold_M.
      match goal with
      | |- context [wait_for_connect_n _ ms rest ?w1] =>
        destruct (IH d w1) as [E Hne]
      end.
      cbn [Nat.add] in E. rewrite E. done.
    + destruct (wait_for_connect_n_settled (S (S (length rest + d))) ms
                  (s :: rest) w Hi) as [-> _].
      destruct (wait_for_connect_n_settled (S (S (length rest))) ms
                  (s :: rest) w Hi) as [-> Hne].
      done.
Qed.

Lemma wait_for_connect_init ms sched w :
  connection_state_ (broker w) = StateInit ->
  wait_for_connect ms sched w
  = (rest ← others_ran sched; wait_for_connect ms rest) (resolve_started w).
Proof.
  intros Hi. unfold wait_for_connect at 1. cbn [Nat.add].
  rewrite wait_for_connect_n_init by done.
  unfold others_ran. unfold_M. destruct sched as [|s rest]; cbn [length].
  - destruct (wait_for_connect_depth ms [] 0 (resolve_started w)) as [<- _].
    done.
  - match goal with
    | |- wait_for_connect_n _ ms rest ?w1 = _ =>
      destruct (wait_for_connect_depth ms rest 0 w1) as [<- _]
    end.
    cbn [Nat.add]. by rewrite Nat.add_0_r.
Qed.

(** C3: [wait_for_connect], for every timeout and every interleaving of
    other threads that never puts the state back to Init. Connected: ok
    at once. Closed: network_fail at once. Connecting: the caller waits;
    when the wait ends the result is network_timeout if the state is
    still Connecting, ok if it is Connected, network_fail if it is
    Closed, and nothing has been issued. Init: the call is the wait,
    started over, from the world in which the state is Connecting and the
    resolve of (host, port) has been handed to the io_service; exactly
    that one operation is issued, the state stays Connecting if nobody
    else touches it, and the result depends on the state at the end of
    the wait just as in the Connecting case. *)
Theorem wait_for_connect_by_state w ms sched :
  Forall (fun s => s ≠ StateInit) sched ->
  (connection_state_ (broker w) = StateConnected ->
   wait_for_connect ms sched w
   = Returns no_error
       (with_output (fun o => o ++ [Log "Wait for connect to broker "]) w))
  ∧ (connection_state_ (broker w) = StateClosed ->
     wait_for_connect ms sched w
     = Returns network_fail
         (with_output (fun o => o ++ [Log "Wait for connect to broker "]) w))
  ∧ (connection_state_ (broker w) = StateConnecting ->
     ∃ r w', wait_for_connect ms sched w = Returns r w'
             ∧ pending w' = pending w
             ∧ connection_state_ (broker w')
               = default StateConnecting (head sched)
             ∧ (connection_state_ (broker w') = StateConnecting ->
                r = network_timeout)
             ∧ (connection_state_ (broker w') = StateConnected ->
                r = no_error)
             ∧ (connection_state_ (broker w') = StateClosed ->
                r = network_fail))
  ∧ (connection_state_ (broker w) = StateInit ->
     ∃ r w', wait_for_connect ms sched w = Returns r w'
             ∧ wait_for_connect ms sched w
               = (rest ← others_ran sched; wait_for_connect ms rest)
                   (resolve_started w)
             ∧ connection_state_ (broker (resolve_started w))
               = StateConnecting
             ∧ pending w'
               = pending w
                 ++ [OpResolve (identity_host (broker w))
                               (identity_port (broker w))]
             ∧ connection_state_ (broker w') ≠ StateInit
             ∧ (sched = [] -> connection_state_ (broker w') = StateConnecting)
             ∧ (connection_state_ (broker w') = StateConnecting ->
                r = network_timeout)
             ∧ (connection_state_ (broker w') = StateConnected ->
                r = no_error)
             ∧ (connection_state_ (broker w') = StateClosed ->
                r = network_fail)).
Proof.
  intros Hs.
  split; [|split; [|split]]; intros Hc; [unfold wait_for_connect; cbn [Nat.add]..|].
  - cbn [wait_for_connect_n]. unfold_M. cbn. by rewrite Hc.
  - cbn [wait_for_connect_n]. unfold_M. cbn. by rewrite Hc.
  - cbn [wait_for_connect_n]. unfold cv_wait_for, others_ran. unfold_M. cbn.
    rewrite Hc. destruct sched as [|s rest]; cbn.
    + rewrite Hc. crack. eexists _, _. split; [done|]. cbn.
      repeat split; congruence.
    + apply Forall_cons in Hs as [Hs _].
      destruct s; try done; crack;
        (eexists _, _; split; [done|]); cbn; repeat split; congruence.
  - assert (∃ r w', wait_for_connect ms sched w = Returns r w'
             ∧ pending w'
               = pending w
                 ++ [OpResolve (identity_host (broker w))
                               (identity_port (broker w))]
             ∧ connection_state_ (broker w') ≠ StateInit
             ∧ (sched = [] -> connection_state_ (broker w') = StateConnecting)
             ∧ (connection_state_ (broker w') = StateConnecting ->
                r = network_timeout)
             ∧ (connection_state_ (broker w') = StateConnected ->
                r = no_error)
             ∧ (connection_state_ (broker w') = StateClosed ->
                r = network_fail)) as (r & w' & Hr & Hrest).
    { unfold wait_for_connect. cbn [Nat.add].
      open_world w. destruct sched as [|s1 rest].
      + cbn. unfold cv_wait_for, others_ran. unfold_M. crack.
        eexists _, _. split; [done|]. cbn. repeat split; congruence.
      + apply Forall_cons in Hs as [Hs1 Hs].
        cbn [length wait_for_connect_n]. unfold cv_wait_for, others_ran.
        unfold_M. cbn. destruct s1; try done; cbn.
        * destruct rest as [|s2 rest]; cbn.
          -- crack. eexists _, _. split; [done|]. cbn.
             repeat split; congruence.
          -- apply Forall_cons in Hs as [Hs2 Hs].
             destruct s2; try done; crack;
               (eexists _, _; split; [done|]); cbn; repeat split; congruence.
        * eexists _, _. split; [done|]. cbn. repeat split; congruence.
        * eexists _, _. split; [done|]. cbn. repeat split; congruence. }
    exists r, w'. split; [done|].
    split; [by apply wait_for_connect_init|]. split; [done|]. done.
Qed.

(** ** Correlation ids over every run *)

Lemma step_ids_evolve e w o w' :
  step e w = Some o -> final_world o = Some w' -> ids_evolve w w'.
Proof.
  intros Hstep Hfin. destruct w as [b s p out]. destruct b.
  unfold ids_evolve, ctr, ids.
  destruct e; unfold_handlers; grind.
  all: try (left; split; [done|]; cbn; try done; apply suffix_cons_r; done).
  all: right; split; [done|]; by rewrite map_app.
Qed.

Lemma wrap_int32_add_l a b : wrap_int32 (wrap_int32 a + b) = wrap_int32 (a + b).
Proof.
  unfold wrap_int32. f_equal.
  replace ((a + 2 ^ 31) mod 2 ^ 32 - 2 ^ 31 + b + 2 ^ 31)
    with ((a + 2 ^ 31) mod 2 ^ 32 + b) by lia.
  rewrite Zplus_mod_idemp_l. f_equal. lia.
Qed.

Lemma wrap_int32_sub_l a b : wrap_int32 (wrap_int32 a - b) = wrap_int32 (a - b).
Proof.
  replace (wrap_int32 a - b) with (wrap_int32 a + - b) by lia.
  by rewrite wrap_int32_add_l.
Qed.

Lemma wrap_int32_eq a b :
  wrap_int32 a = wrap_int32 b -> -2 ^ 32 < a - b < 2 ^ 32 -> a = b.
Proof.
  unfold wrap_int32. intros H Hr.
  assert (Hm : (a + 2 ^ 31) mod 2 ^ 32 = (b + 2 ^ 31) mod 2 ^ 32) by lia.
  change (2 ^ 31) with 2147483648 in *. change (2 ^ 32) with 4294967296 in *.
  Z.div_mod_to_equations. lia.
Qed.

Lemma ids_inv_evolve w w' : ids_inv w -> ids_evolve w w' -> ids_inv w'.
Proof.
  intros [Hc Hw] [[Hctr [k Hsuf]]|[Hctr Hids]]; unfold ids_inv.
  - rewrite Hctr. split; [done|]. intros i x Hi.
    specialize (Hw (length k + i)%nat x). rewrite Hsuf in Hw.
    rewrite lookup_app_r, length_app in Hw by lia.
    replace (length k + i - length k)%nat with i in Hw by lia.
    rewrite (Hw Hi). f_equal. lia.
  - rewrite Hctr, Hids. split; [apply wrap_int32_range|].
    intros i x Hi. rewrite length_app. cbn [length].
    destruct (decide (i < length (ids w))%nat) as [Hlt|Hge].
    + rewrite lookup_app_l in Hi by done. rewrite (Hw i x Hi).
      rewrite wrap_int32_sub_l. f_equal. lia.
    + rewrite lookup_app_r in Hi by lia.
      destruct (i - length (ids w))%nat as [|n] eqn:Hd; [|by destruct n].
      cbn in Hi. simplify_eq. rewrite wrap_int32_sub_l.
      replace (ctr w + 1 - _) with (ctr w) by lia. by rewrite wrap_int32_id.
Qed.

Lemma run_ids_inv tr : ∀ w w', ids_inv w -> run tr w = Some w' -> ids_inv w'.
Proof.
  induction tr as [|e tr IH]; intros w w' Hinv Hrun; cbn in Hrun.
  - by simplify_eq.
  - destruct (step e w) as [o|] eqn:Hstep; [|done].
    assert (∀ w1, final_world o = Some w1 -> ids_inv w1) as Hnext.
    { intros w1 Hw1. eapply ids_inv_evolve; [done|].
      by eapply step_ids_evolve. }
    destruct o as [a w0|x w0| |]; try done;
      (apply (IH w0); [by apply Hnext|done]).
Qed.

Lemma window_in_int32 c l x : window c l -> x ∈ l -> in_int32 x.
Proof.
  intros Hw [i Hi]%list_elem_of_lookup. rewrite (Hw i x Hi).
  apply wrap_int32_range.
Qed.

Lemma window_consecutive c l i x y :
  window c l -> l !! i = Some x -> l !! S i = Some y -> y = wrap_int32 (x + 1).
Proof.
  intros Hw Hx Hy. rewrite (Hw _ _ Hx), (Hw _ _ Hy), wrap_int32_add_l.
  f_equal. lia.
Qed.

Lemma window_last c l x :
  in_int32 c -> window c l -> last l = Some x -> c = wrap_int32 (x + 1).
Proof.
  intros Hc Hw Hl. rewrite last_lookup in Hl.
  assert (length l ≠ 0)%nat by (destruct l; [done|cbn; lia]).
  rewrite (Hw _ _ Hl), wrap_int32_add_l.
  replace (c - _ + 1) with c by lia. by rewrite wrap_int32_id.
Qed.

Lemma window_NoDup c l :
  window c l -> Z.of_nat (length l) <= 2 ^ 32 -> NoDup l.
Proof.
  intros Hw Hlen. apply NoDup_alt. intros i j x Hi Hj.
  pose proof (lookup_lt_Some _ _ _ Hi). pose proof (lookup_lt_Some _ _ _ Hj).
  pose proof (Hw _ _ Hi) as Ei. rewrite (Hw _ _ Hj) in Ei.
  apply wrap_int32_eq in Ei; lia.
Qed.

Lemma window_increasing c l :
  window c l -> int32_max ∉ l -> strictly_increasing l.
Proof.
  intros Hw Hmax i j x y Hij Hx Hy.
  assert (∀ d i x y, l !! i = Some x -> l !! (i + S d)%nat = Some y -> x < y)
    as Hstep.
  { clear i j x y Hij Hx Hy. induction d as [|d IH]; intros i x y Hx Hy.
    - replace (i + 1)%nat with (S i) in Hy by lia.
      rewrite (window_consecutive _ _ _ _ _ Hw Hx Hy).
      assert (in_int32 x) by (eapply window_in_int32; [done|];
                               by eapply list_elem_of_lookup_2).
      assert (x ≠ int32_max).
      { intros ->. apply Hmax. by eapply list_elem_of_lookup_2. }
      rewrite wrap_int32_id; unfold in_int32, int32_min, int32_max in *; lia.
    - destruct (lookup_lt_is_Some_2 l (i + S d)%nat) as [z Hz].
      { apply lookup_lt_Some in Hy. lia. }
      pose proof (IH _ _ _ Hx Hz).
      replace (i + S (S d))%nat with (S (i + S d)) in Hy by lia.
      rewrite (window_consecutive _ _ _ _ _ Hw Hz Hy).
      assert (in_int32 z) by (eapply window_in_int32; [done|];
                               by eapply list_elem_of_lookup_2).
      assert (z ≠ int32_max).
      { intros ->. apply Hmax. by eapply list_elem_of_lookup_2. }
      rewrite wrap_int32_id; unfold in_int32, int32_min, int32_max in *; lia. }
  apply (Hstep (j - i - 1)%nat i); [done|].
  by replace (i + S (j - i - 1))%nat with j by lia.
Qed.

Lemma push_request_open w req :
  connection_state_ (broker w) ≠ StateClosed ->
  ∃ w', push_request req w = Returns () w'
        ∧ ctr w' = wrap_int32 (ctr w + 1)
        ∧ ids w' = ids w ++ [ctr w]
        ∧ in_flight_ (broker w')
          = in_flight_ (broker w)
            ++ [set_correlation_id (next_correlation_id_ (broker w)) req]
        ∧ shared w' = shared w.
Proof.
  intros Hc. unfold push_request, write_next_request, ctr, ids. unfold_M.
  cbn. rewrite bool_decide_eq_false_2 by done. cbn.
  repeat break_match; cbn; (eexists; split; [done|]); cbn;
    by rewrite ?map_app.
Qed.

(** C9, as the code has it: the counter starts at 1; in every reachable
    world it is a 32-bit value and each enqueue ([push_request] on a
    broker that is not Closed) assigns its value and advances it by one
    with 32-bit wrap-around; the correlation ids of consecutive queue
    entries are consecutive in that arithmetic and the counter is the
    successor of the last one; so the ids are strictly increasing in
    queue order as long as INT32_MAX is not among them, and no two
    entries share an id as long as the queue holds at most 2^32
    entries. *)
Theorem correlation_ids_window host port client w :
  reachable host port client w ->
  ctr (World_new host port client) = 1
  ∧ in_int32 (ctr w)
  ∧ (∀ req, connection_state_ (broker w) ≠ StateClosed ->
            ∃ w', push_request req w = Returns () w'
                  ∧ ctr w' = wrap_int32 (ctr w + 1)
                  ∧ ids w' = ids w ++ [ctr w])
  ∧ (∀ i x y, ids w !! i = Some x -> ids w !! S i = Some y ->
              y = wrap_int32 (x + 1))
  ∧ (∀ x, last (ids w) = Some x -> ctr w = wrap_int32 (x + 1))
  ∧ (int32_max ∉ ids w -> strictly_increasing (ids w))
  ∧ (Z.of_nat (length (ids w)) <= 2 ^ 32 -> NoDup (ids w)).
Proof.
  intros [tr Hrun].
  assert (ids_inv w) as [Hc Hw].
  { eapply run_ids_inv; [|done]. split; [by compute|]. by intros i x. }
  split; [done|]. split; [done|]. split.
  { intros req Hopen. destruct (push_request_open w req Hopen)
      as (w' & ? & ? & ? & _). eauto. }
  split; [intros i x y; by apply (window_consecutive (ctr w))|].
  split; [intros x; by apply window_last|].
  split; [by apply (window_increasing (ctr w))
         |by apply (window_NoDup (ctr w))].
Qed.

(** ** Promises of queued requests over every run *)

Lemma promises_inv_trans w w' : promises_inv w -> trans w w' -> promises_inv w'.
Proof.
  intros [Hnd Hpo Hkn Hops Hidle Hopen] Ht.
  destruct Ht as
    [Hc Hq Hp Ho Hs | f Hc Hq Hp Ho Hf Hs | Hc Hq Hp Ho Hs
    | Hc0 Hc Hq Hp Ho Hs | Hc Hq Hp Ho Hs
    | h rest v Hc0 Hc Hq0 Hq Hp Ho Hh Hv Hs
    | h rest v Hc Hq0 Hq Hp Ho Hh Hv Hs
    | h Hc0 Hc Hq Hp Ho Hs | h Hc0 Hc Hq Hp Ho Hs].
  - split; rewrite ?Hc, ?Hq, ?Hp, ?Ho, ?Hs; done.
  - assert (Hfresh : f ∉ queued_handles w ++ posted w).
    { intros [Hin|Hin]%elem_of_app.
      - apply Hkn in Hin as [x Hx]. congruence.
      - apply Hpo in Hin. congruence. }
    split; rewrite ?Hc, ?Hq, ?Hp, ?Ho, ?Hs; try done.
    + rewrite app_assoc. apply NoDup_app. split; [done|]. split.
      * intros x Hx ->%list_elem_of_singleton. done.
      * apply NoDup_singleton.
    + intros h [Hin| ->%list_elem_of_singleton]%elem_of_app.
      * rewrite lookup_insert_ne; [by apply Hpo|].
        intros ->. apply Hfresh, elem_of_app. by right.
      * by rewrite lookup_insert_eq.
    + intros h Hin. rewrite lookup_insert_ne; [by apply Hkn|].
      intros ->. apply Hfresh, elem_of_app. by left.
    + intros Hpre h Hin. rewrite lookup_insert_ne; [by apply Hopen|].
      intros ->. apply Hfresh, elem_of_app. by left.
  - split; rewrite ?Hc, ?Hq, ?Hp, ?Hs; try done.
    + lia.
    + intros [|]; done.
    + intros [|Hne]; [done|]. apply Hopen. right. lia.
  - split; rewrite ?Hc, ?Hq, ?Hp, ?Ho, ?Hs; try done.
    + rewrite Hidle by auto. lia.
    + intros [|]; done.
    + intros _. apply Hopen. left. by rewrite Hc0.
  - split; rewrite ?Hc, ?Hq, ?Hp, ?Hs; try done.
    + lia.
    + intros _. lia.
    + intros _. apply Hopen. right. lia.
  - assert (Hhq : h ∈ queued_handles w) by (rewrite Hq0; left).
    assert (Hhp : h ∉ posted w).
    { intros Hin. apply NoDup_app in Hnd as (_ & Hd & _). by apply (Hd h). }
    split; rewrite ?Hc, ?Hq, ?Hp, ?Ho, ?Hs; try done.
    + intros x Hx. rewrite lookup_insert_ne; [by apply Hpo|].
      by intros ->.
    + intros x Hx. destruct (decide (h = x)) as [->|];
        [by rewrite lookup_insert_eq|].
      rewrite lookup_insert_ne by done. by apply Hkn.
    + intros [|]; done.
    + intros [|Hne]; [done|]. rewrite Hidle in Hne by auto. done.
  - assert (Hhq : h ∈ queued_handles w) by (rewrite Hq0; left).
    assert (Hhp : h ∉ posted w).
    { intros Hin. apply NoDup_app in Hnd as (_ & Hd & _). by apply (Hd h). }
    assert (Hhr : h ∉ rest).
    { rewrite Hq0 in Hnd. cbn in Hnd. apply NoDup_cons in Hnd as [Hn _].
      intros Hin. apply Hn, elem_of_app. by left. }
    split; rewrite ?Hc, ?Hq, ?Hp, ?Ho, ?Hs; try done.
    + rewrite Hq0 in Hnd. cbn in Hnd. by apply NoDup_cons in Hnd as [_ ?].
    + intros x Hx. rewrite lookup_insert_ne; [by apply Hpo|].
      by intros ->.
    + intros x Hx. rewrite lookup_insert_ne by (by intros ->).
      apply Hkn. rewrite Hq0. by right.
    + intros Hpre x Hx. rewrite lookup_insert_ne by (by intros ->).
      apply Hopen; [done|]. rewrite Hq0. by right.
  - assert (Hhp : h ∈ posted w) by (rewrite Hp; left).
    assert (Hhq : h ∉ queued_handles w).
    { intros Hin. apply NoDup_app in Hnd as (_ & Hd & _). by apply (Hd h). }
    assert (Hnd' : NoDup (queued_handles w ++ h :: posted w')) by (by rewrite <- Hp).
    assert (Hhp' : h ∉ posted w').
    { apply NoDup_app in Hnd' as (_ & _ & Hn).
      by apply NoDup_cons in Hn as [? _]. }
    assert (Hsame : ∀ x, x ≠ h -> shared w' !! x = shared w !! x).
    { intros x Hx. destruct Hs as [->| ->]; [done|].
      by rewrite lookup_insert_ne. }
    split; rewrite ?Hc, ?Hq, ?Ho; try done.
    + apply NoDup_app in Hnd' as (Hn1 & Hn2 & Hn3).
      apply NoDup_app. split; [done|]. split.
      * intros x Hx Hx'. apply (Hn2 x Hx). by right.
      * by apply NoDup_cons in Hn3 as [_ ?].
    + intros x Hx. rewrite Hsame by (by intros ->).
      apply Hpo. rewrite Hp. by right.
    + intros x Hx. rewrite Hsame by (by intros ->). by apply Hkn.
    + intros [|]; done.
    + intros [|Hne] x Hx; [done|]. rewrite Hsame by (by intros ->).
      apply Hopen; [by right|done].
  - assert (Hhp : h ∈ posted w) by (rewrite Hp; left).
    assert (Hnd' : NoDup (queued_handles w ++ h :: posted w')) by (by rewrite <- Hp).
    split; rewrite ?Hc, ?Hq, ?Ho, ?Hs; try done.
    + rewrite <- app_assoc. done.
    + intros x Hx. apply Hpo. rewrite Hp. by right.
    + intros x [Hx| ->%list_elem_of_singleton]%elem_of_app;
        [by apply Hkn|]. rewrite (Hpo h Hhp). done.
    + intros Hpre x [Hx| ->%list_elem_of_singleton]%elem_of_app;
        [by apply Hopen|]. by apply Hpo.
Qed.

Lemma posted_handles_app l l' :
  posted_handles (l ++ l') = posted_handles l ++ posted_handles l'.
Proof.
  induction l as [|[| | | |[]] l IH]; cbn; by rewrite ?IH.
Qed.

Lemma connect_ops_app l l' :
  connect_ops (l ++ l') = (connect_ops l + connect_ops l')%nat.
Proof.
  induction l as [|[] l IH]; cbn; by rewrite ?IH.
Qed.

Lemma posted_handles_delete p : ∀ i op,
  p !! i = Some op ->
  match op with
  | OpPost (PushRequest r) =>
    posted_handles p ≡ₚ response_promise r :: posted_handles (delete i p)
  | _ => posted_handles (delete i p) = posted_handles p
  end.
Proof.
  induction p as [|x p IH]; intros i op Hi; [done|].
  destruct i as [|i]; cbn in Hi.
  - simplify_eq. by destruct op as [| | | |[]].
  - specialize (IH i op Hi).
    change (delete (S i) (x :: p)) with (x :: delete i p).
    destruct op as [| | | |[]]; destruct x as [| | | |[]];
      cbn [posted_handles]; rewrite ?IH; try done.
    apply perm_swap.
Qed.

Lemma connect_ops_delete p : ∀ i op,
  p !! i = Some op ->
  match op with
  | OpResolve _ _ | OpConnect _ _ =>
    connect_ops p = S (connect_ops (delete i p))
  | _ => connect_ops (delete i p) = connect_ops p
  end.
Proof.
  induction p as [|x p IH]; intros i op Hi; [done|].
  destruct i as [|i]; cbn in Hi.
  - simplify_eq. by destruct op.
  - specialize (IH i op Hi).
    change (delete (S i) (x :: p)) with (x :: delete i p).
    destruct op; destruct x; cbn [connect_ops]; by rewrite ?IH.
Qed.

Ltac grind2 :=
  repeat first
    [ progress (cbn in *)
    | progress simplify_eq
    | progress (rewrite ?lookup_insert_eq in * )
    | case_bool_decide
    | case_decide
    | break_match ].

Ltac trans_side :=
  unfold conn_state, queued_handles, posted, connect_count in *; cbn in *;
  rewrite ?posted_handles_app, ?connect_ops_app; cbn;
  rewrite ?app_nil_r, ?Nat.add_0_r, ?map_app; cbn;
  try done; try lia; try congruence.

Ltac solve_trans :=
  first
    [ solve [apply trans_quiet; trans_side]
    | solve [apply trans_close; trans_side]
    | solve [apply trans_start; trans_side]
    | solve [apply trans_connected; trans_side]
    | solve [eapply trans_pop; trans_side]
    | solve [eapply trans_fail_close; trans_side]
    | solve [eapply trans_push; trans_side]
    | solve [eapply trans_drop; trans_side; auto] ].

Lemma step_trans e w o w' :
  step e w = Some o -> final_world o = Some w' -> trans w w'.
Proof.
  intros Hstep Hfin. destruct w as [b s p out]. destruct b.
  destruct e; unfold step, complete in Hstep; cbn in Hstep.
  - (* EvCall *)
    unfold_handlers. grind2.
    eapply (trans_call _ _ (fresh (dom s))); trans_side.
    apply not_elem_of_dom, is_fresh.
  - unfold_handlers. grind2; solve_trans.
  - unfold_handlers. grind2; solve_trans.
  - destruct (p !! i) as [op|] eqn:Hop; [|done].
    pose proof (posted_handles_delete p i op Hop) as Hph.
    pose proof (connect_ops_delete p i op Hop) as Hco.
    destruct op as [| | | |[]]; try done. clear Hop.
    unfold with_pending in Hstep at 1.
    cbn [broker shared pending output] in Hstep.
    revert Hph Hco Hstep. generalize (delete i p). intros p1 Hph Hco Hstep.
    unfold_handlers. grind2; solve_trans.
  - destruct (p !! i) as [op|] eqn:Hop; [|done].
    pose proof (posted_handles_delete p i op Hop) as Hph.
    pose proof (connect_ops_delete p i op Hop) as Hco.
    destruct op as [| | | |[]]; try done. clear Hop.
    unfold with_pending in Hstep at 1.
    cbn [broker shared pending output] in Hstep.
    revert Hph Hco Hstep. generalize (delete i p). intros p1 Hph Hco Hstep.
    unfold_handlers. grind2; solve_trans.
  - destruct (p !! i) as [op|] eqn:Hop; [|done].
    pose proof (posted_handles_delete p i op Hop) as Hph.
    pose proof (connect_ops_delete p i op Hop) as Hco.
    destruct op as [| | | |[]]; try done. clear Hop.
    unfold with_pending in Hstep at 1.
    cbn [broker shared pending output] in Hstep.
    revert Hph Hco Hstep. generalize (delete i p). intros p1 Hph Hco Hstep.
    unfold_handlers. grind2; solve_trans.
  - destruct (p !! i) as [op|] eqn:Hop; [|done].
    pose proof (posted_handles_delete p i op Hop) as Hph.
    pose proof (connect_ops_delete p i op Hop) as Hco.
    destruct op as [| | | |[]]; try done. clear Hop.
    unfold with_pending in Hstep at 1.
    cbn [broker shared pending output] in Hstep.
    revert Hph Hco Hstep. generalize (delete i p). intros p1 Hph Hco Hstep.
    unfold_handlers. grind2; solve_trans.
  - destruct (p !! i) as [op|] eqn:Hop; [|done].
    pose proof (posted_handles_delete p i op Hop) as Hph.
    pose proof (connect_ops_delete p i op Hop) as Hco.
    destruct op as [| | | |[]]; try done; clear Hop;
    unfold with_pending in Hstep at 1;
    cbn [broker shared pending output] in Hstep;
    revert Hph Hco Hstep; generalize (delete i p); intros p1 Hph Hco Hstep;
    unfold_handlers; grind2; solve_trans.
Qed.

Lemma run_promises_inv tr :
  ∀ w w', promises_inv w -> run tr w = Some w' -> promises_inv w'.
Proof.
  induction tr as [|e tr IH]; intros w w' Hinv Hrun; cbn in Hrun.
  - by simplify_eq.
  - destruct (step e w) as [o|] eqn:Hstep; [|done].
    assert (∀ w1, final_world o = Some w1 -> promises_inv w1) as Hnext.
    { intros w1 Hw1. eapply promises_inv_trans; [done|].
      by eapply step_trans. }
    destruct o as [a w0|x w0| |]; try done;
      (apply (IH w0); [by apply Hnext|done]).
Qed.

Lemma reachable_promises_inv host port client w :
  reachable host port client w -> promises_inv w.
Proof.
  intros [tr Hrun]. eapply run_promises_inv; [|done].
  split; cbn; try done; try lia; try apply NoDup_nil_2; intros;
    try match goal with H : _ ∈ [] |- _ => by apply elem_of_nil in H end.
Qed.

(** In every world the program can be in, a queued request of a broker
    that is not Closed has its promise unresolved. *)
Lemma reachable_queue_unresolved host port client w req :
  reachable host port client w ->
  connection_state_ (broker w) ≠ StateClosed ->
  req ∈ in_flight_ (broker w) ->
  future_of w req = Some Pending.
Proof.
  intros Hr Hc Hin. apply reachable_promises_inv in Hr.
  apply (pi_open w Hr); [by left|].
  unfold queued_handles. by apply list_elem_of_fmap_2.
Qed.

(** ** A whole response with a body *)

(** The two reads of a response with a body, given that the head's promise
    is unresolved. *)
Lemma response_delivery w i req rest payload :
  future_of w req = Some Pending ->
  pending w !! i = Some (OpRead HeaderBuffer 8) ->
  length (header_buffer_ (broker w)) = 8%nat ->
  connection_state_ (broker w) = StateConnected ->
  in_flight_ (broker w) = req :: rest ->
  response_handler_state_ (broker w) = RespHandlerStateReadHeader ->
  in_int32 (correlation_id (header req)) ->
  (1 ≤ length payload)%nat ->
  4 + Z.of_nat (length payload) <= int32_max ->
  ∃ w1,
    step (EvRead i 0 (be32 (4 + Z.of_nat (length payload))
                        ++ be32 (correlation_id (header req)))) w
    = Some (Returns () w1)
    ∧ response_buffer_ (broker w1) = Some (new_buffer (length payload))
    ∧ pending w1
      = delete i (pending w) ++ [OpRead ResponseBuffer (length payload)]
    ∧ ∃ w2,
        step (EvRead (length (delete i (pending w))) 0 payload) w1
        = Some (Returns () w2)
        ∧ future_of w2 req = Some (Ready (PacketDecoder_new payload))
        ∧ in_flight_ (broker w2) = rest.
Proof.
  intros Hp Hop Hlen Hc Hq Hs Hid Hk Hmax.
  set (k := length payload) in *.
  destruct (decode_header_be32 (4 + Z.of_nat k) (correlation_id (header req)))
    as (pd1 & pd2 & H1 & H2 & Hok); [|done|].
  { unfold in_int32, int32_min, int32_max in *. lia. }
  assert (Hd : length (be32 (4 + Z.of_nat k)
                         ++ be32 (correlation_id (header req))) = 8%nat)
    by done.
  revert H1 Hd.
  generalize (be32 (4 + Z.of_nat k) ++ be32 (correlation_id (header req))).
  intros data H1 Hd. open_world w.
  assert (Hnb : length (new_buffer k) = k) by apply length_replicate.
  eexists. split.
  { unfold step, complete. cbn. rewrite Hop. cbn.
    rewrite decide_True by (split; [lia|done]).
    unfold read_completion. unfold_actor. cbn.
    rewrite fill_exact by congruence.
    rewrite H1, H2, Hok.
    replace (4 + Z.of_nat k - 4) with (Z.of_nat k) by lia.
    rewrite wrap_int32_id
      by (unfold in_int32, int32_min, int32_max in *; lia).
    crack. rewrite Nat2Z.id, Hnb.
    destruct (new_buffer k) as [|x xs] eqn:Hbuf; [cbn in Hnb; lia|].
    cbn. rewrite <- Hbuf. reflexivity. }
  cbn. split; [done|]. split; [done|].
  unfold step, complete. cbn.
  rewrite list_lookup_middle by done. cbn.
  rewrite decide_True by done.
  unfold read_completion. unfold_actor. cbn.
  rewrite fill_exact by (by rewrite Hnb).
  crack.
  unfold set_value, promise_set, pop_front, promise_destroy. unfold_M.
  cbn. rewrite Hp. cbn. rewrite lookup_insert_eq. cbn.
  destruct rest as [|r2 rest].
  { eexists. split; [done|]. cbn. by rewrite lookup_insert_eq. }
  destruct (sent r2).
  - crack. destruct data as [|d0 data]; [done|]. cbn.
    eexists. split; [done|]. cbn. by rewrite lookup_insert_eq.
  - eexists. split; [done|]. cbn. by rewrite lookup_insert_eq.
Qed.

(** X17: for a body of K >= 1 bytes the response goes through, in
    every world the program can be in with the broker Connected, the
    reader in ReadHeader and the header read outstanding:
    the arrival of [be32 (4 + K) || be32 c] makes the reader allocate
    exactly K bytes and issue the body read, and the arrival of the K
    payload bytes fulfils the head's promise with a decoder over exactly
    those bytes and pops the head. *)
Lemma response_delivered host port client w i req rest payload :
  reachable host port client w ->
  pending w !! i = Some (OpRead HeaderBuffer 8) ->
  length (header_buffer_ (broker w)) = 8%nat ->
  connection_state_ (broker w) = StateConnected ->
  in_flight_ (broker w) = req :: rest ->
  response_handler_state_ (broker w) = RespHandlerStateReadHeader ->
  in_int32 (correlation_id (header req)) ->
  (1 ≤ length payload)%nat ->
  4 + Z.of_nat (length payload) <= int32_max ->
  ∃ w1,
    step (EvRead i 0 (be32 (4 + Z.of_nat (length payload))
                        ++ be32 (correlation_id (header req)))) w
    = Some (Returns () w1)
    ∧ response_buffer_ (broker w1) = Some (new_buffer (length payload))
    ∧ pending w1
      = delete i (pending w) ++ [OpRead ResponseBuffer (length payload)]
    ∧ ∃ w2,
        step (EvRead (length (delete i (pending w))) 0 payload) w1
        = Some (Returns () w2)
        ∧ future_of w2 req = Some (Ready (PacketDecoder_new payload))
        ∧ in_flight_ (broker w2) = rest.
Proof.
  intros Hreach Hop Hlen Hc Hq Hs Hid Hk Hmax.
  apply response_delivery; try done.
  eapply reachable_queue_unresolved; [done|by rewrite Hc|].
  rewrite Hq. left.
Qed.

(** ** Closing *)

(** X1: [close] always returns and leaves the broker Closed ([is_closed]
    answers true, [is_connected] false); a second [close] changes nothing
    at all. It never touches the queue, the promises or the outstanding
    operations: queued requests stay queued with their futures as they
    were. On a broker that was not Closed it shuts the socket down, closes
    it and notifies the waiters, once; on a Closed one it does nothing. *)
Theorem close_idempotent w :
  ∃ w1,
    close w = Returns () w1
    ∧ close w1 = Returns () w1
    ∧ is_closed w1 = Returns true w1
    ∧ is_connected w1 = Returns false w1
    ∧ in_flight_ (broker w1) = in_flight_ (broker w)
    ∧ shared w1 = shared w
    ∧ pending w1 = pending w
    ∧ (conn_state w = StateClosed -> w1 = w)
    ∧ (conn_state w ≠ StateClosed ->
       output w1 = output w ++ [Log "Closing connection to broker ";
                                SocketShutdown; SocketClose; NotifyAll]).
Proof.
  destruct w as [b s p o]. destruct b. unfold conn_state, close. unfold_M. cbn.
  case_decide as Hc; cbn in Hc; subst.
  - eexists. split; [done|]. cbn. rewrite decide_True by done.
    repeat split; done.
  - eexists. split; [done|]. cbn. rewrite decide_True by done.
    rewrite bool_decide_eq_true_2 by done.
    rewrite bool_decide_eq_false_2 by done.
    repeat split; try done. intros _. by rewrite <- !app_assoc.
Qed.

(** ** Calls *)

(** The operation submitted last is the one at index [length (pending w)]. *)
Lemma complete_last op w :
  complete (length (pending w)) (with_pending (fun p => p ++ [op]) w)
  = Some (op, w).
Proof.
  destruct w as [b s p o]. unfold complete, with_pending. cbn.
  rewrite list_lookup_middle by done. cbn.
  by rewrite delete_middle, app_nil_r.
Qed.

(** X2: a [call] on a broker that is not Closed, followed by the run of
    the [push_request] it posted: the call returns a handle no promise
    had before; the request enters the queue at the tail with the key
    and body given, the API version, the broker's client id and the
    counter's value as correlation id, not marked sent; the counter
    advances by one (32-bit wrap-around); the returned future is
    unresolved and no other future has changed. *)
Theorem call_then_push_enqueues w k p :
  conn_state w ≠ StateClosed ->
  ∃ f w1 w2,
    call k p w = Returns f w1
    ∧ shared w !! f = None
    ∧ step (EvRun (length (pending w))) w1 = Some (Returns () w2)
    ∧ in_flight_ (broker w2)
      = in_flight_ (broker w)
        ++ [mkInFlightRequest
              (mkRequestHeader k KafkaApiVersion (ctr w) (client_id_ (broker w)))
              p false f]
    ∧ ctr w2 = wrap_int32 (ctr w + 1)
    ∧ shared w2 = <[f:=Pending]> (shared w).
Proof.
  intros Hc.
  set (f := fresh (dom (shared w))).
  set (r := mkInFlightRequest
              (mkRequestHeader k KafkaApiVersion 0 (client_id_ (broker w)))
              p false f).
  set (w0 := with_shared (insert f Pending) w).
  destruct (push_request_open w0 r Hc) as (w2 & Hpush & Hctr & _ & Hq & Hs).
  exists f, (with_pending (fun p => p ++ [OpPost (PushRequest r)]) w0), w2.
  split; [reflexivity|]. split; [apply not_elem_of_dom, is_fresh|].
  split; [|done].
  unfold step. change (pending w) with (pending w0).
  by rewrite complete_last, Hpush.
Qed.

(** X3: a [call] on a Closed broker, followed by the run of the
    [push_request] it posted: the call still returns a fresh handle, but
    the request is dropped: the broker (queue and counter included) and
    the outstanding operations are as before the call, and the returned
    future holds future_error(broken_promise). *)
Theorem call_after_close_breaks_promise w k p :
  conn_state w = StateClosed ->
  ∃ f w1 w2,
    call k p w = Returns f w1
    ∧ shared w !! f = None
    ∧ step (EvRun (length (pending w))) w1 = Some (Returns () w2)
    ∧ broker w2 = broker w
    ∧ pending w2 = pending w
    ∧ shared w2 = <[f:=Failed (future_error broken_promise)]> (shared w).
Proof.
  intros Hc.
  set (f := fresh (dom (shared w))).
  set (r := mkInFlightRequest
              (mkRequestHeader k KafkaApiVersion 0 (client_id_ (broker w)))
              p false f).
  set (w0 := with_shared (insert f Pending) w).
  exists f, (with_pending (fun p => p ++ [OpPost (PushRequest r)]) w0).
  eexists. split; [reflexivity|]. split; [apply not_elem_of_dom, is_fresh|].
  unfold step. change (pending w) with (pending w0).
  rewrite complete_last.
  unfold push_request, promise_destroy. unfold_M. cbn.
  unfold conn_state in Hc. rewrite Hc. cbn.
  rewrite bool_decide_eq_true_2 by done. unfold w0. cbn.
  rewrite lookup_insert_eq. cbn.
  split; [reflexivity|]. cbn. split; [done|]. split; [done|].
  apply insert_insert_eq.
Qed.

(** ** Connecting *)

Lemma connect_failures ecs : ∀ w ep next,
  pending w = [OpConnect ep next] ->
  Forall (fun ec => ec ≠ 0) ecs ->
  (length ecs ≤ S (length next))%nat ->
  ∃ w', run (map (EvConnect 0) ecs) w = Some w'
    ∧ in_flight_ (broker w') = in_flight_ (broker w)
    ∧ shared w' = shared w
    ∧ match (ep :: next) !! length ecs with
      | Some ep' =>
        pending w' = [OpConnect ep' (drop (S (length ecs)) (ep :: next))]
        ∧ conn_state w' = conn_state w
      | None => pending w' = [] ∧ conn_state w' = StateClosed
      end.
Proof.
  induction ecs as [|ec ecs IH]; intros w ep next Hp Hnz Hlen.
  { exists w. cbn. by rewrite drop_0. }
  apply Forall_cons in Hnz as [Hec Hnz]. cbn [length] in Hlen.
  destruct w as [b s p o]. cbn in Hp. subst p.
  cbn [map run]. unfold step, complete. cbn.
  unfold handle_connect. unfold_M. cbn. rewrite decide_False by done.
  destruct next as [|ep' next'].
  - destruct ecs; [|cbn in Hlen; lia].
    unfold close. unfold_M. cbn. unfold conn_state.
    case_decide; cbn; eexists; (split; [reflexivity|]); by cbn.
  - cbn.
    match goal with |- context [run _ ?W] =>
      destruct (IH W ep' next') as (w' & Hrun & Hq & Hs & Hm) end;
      [done|done|cbn in Hlen |- *; lia|].
    exists w'. by rewrite Hrun.
Qed.

(** X4: after a successful resolve the endpoints are tried one at a
    time, in the order the resolver gave them, each after the one before
    it has failed: with the first [n] attempts failed, the only
    outstanding operation is the connect to endpoint number [n], carrying
    the endpoints after it, and the connection state is as it was; when
    the last endpoint has failed too, nothing is outstanding and the
    broker is Closed. The queue and the promises are untouched
    throughout. *)
Theorem endpoints_tried_in_order w host port eps ecs :
  pending w = [OpResolve host port] ->
  eps ≠ [] ->
  Forall (fun ec => ec ≠ 0) ecs ->
  (length ecs ≤ length eps)%nat ->
  ∃ w', run (EvResolve 0 0 eps :: map (EvConnect 0) ecs) w = Some w'
    ∧ in_flight_ (broker w') = in_flight_ (broker w)
    ∧ shared w' = shared w
    ∧ match eps !! length ecs with
      | Some ep =>
        pending w' = [OpConnect ep (drop (S (length ecs)) eps)]
        ∧ conn_state w' = conn_state w
      | None => pending w' = [] ∧ conn_state w' = StateClosed
      end.
Proof.
  intros Hp Heps Hnz Hlen. destruct eps as [|ep next]; [done|].
  destruct w as [b s p o]. cbn in Hp. subst p.
  cbn [run]. unfold step, complete. cbn.
  rewrite decide_True by (by right).
  unfold handle_resolve. unfold_M. cbn.
  destruct (decide (0 ≠ 0)) as [|_]; [done|]. cbn.
  match goal with |- context [run _ ?W] =>
    destruct (connect_failures ecs W ep next) as (w' & Hrun & Hq & Hs & Hm) end;
    [done|done|done|].
  exists w'. by rewrite Hrun.
Qed.

(** X5: a request pushed onto an empty queue while the broker is still
    Connecting is queued (with the counter's value as correlation id) and
    nothing is written; when the connect then succeeds the broker becomes
    Connected, the waiters are notified, and, the request's header
    encoding, exactly one write is issued: the encoded header followed by
    the body of that request. *)
Theorem queued_request_written_on_connect w ep next r hb :
  conn_state w = StateConnecting ->
  in_flight_ (broker w) = [] ->
  pending w = [OpConnect ep next; OpPost (PushRequest r)] ->
  sent r = false ->
  encode_header (header (set_correlation_id (ctr w) r)) (length (packet r))
  = Some hb ->
  ∃ w1 w2,
    step (EvRun 1) w = Some (Returns () w1)
    ∧ pending w1 = [OpConnect ep next]
    ∧ step (EvConnect 0 0) w1 = Some (Returns () w2)
    ∧ conn_state w2 = StateConnected
    ∧ in_flight_ (broker w2) = [set_correlation_id (ctr w) r]
    ∧ pending w2 = [OpWrite [hb; packet r]]
    ∧ NotifyAll ∈ output w2.
Proof.
  intros Hc Hq Hp Hs He. destruct w as [b s p o]. destruct b.
  unfold conn_state, ctr in *. cbn in *. subst.
  eexists _, _. split.
  { unfold step, complete. cbn. unfold push_request. unfold_M. cbn.
    reflexivity. }
  cbn. split; [done|]. split.
  { unfold step, complete. cbn. unfold handle_connect, write_next_request.
    unfold_M. cbn. rewrite decide_True by done. cbn.
    rewrite Hs, He. reflexivity. }
  cbn. repeat split; try done. set_solver.
Qed.

(** X6: [push_request] on a Connected broker whose queue is not empty
    and whose head is not yet marked sent (its write has not completed)
    and has a header that encodes: the new request goes to the tail, and
    the write that is issued is the head's, header and body, whether or
    not such a write is already outstanding; the request just pushed is
    not written. *)
Theorem push_request_writes_head w req rest hb r :
  conn_state w = StateConnected ->
  in_flight_ (broker w) = req :: rest ->
  sent req = false ->
  encode_header (header req) (length (packet req)) = Some hb ->
  ∃ w', push_request r w = Returns () w'
    ∧ in_flight_ (broker w')
      = req :: rest ++ [set_correlation_id (ctr w) r]
    ∧ pending w' = pending w ++ [OpWrite [hb; packet req]].
Proof.
  intros Hc Hq Hs He. destruct w as [b s p o]. destruct b.
  unfold conn_state, ctr in *. cbn in *. subst.
  unfold push_request, write_next_request. unfold_M. crack.
  rewrite Hs, He. eexists. split; [reflexivity|]. done.
Qed.

(** ** Failures on the read side *)

(** X7: in every world the program can be in, a read that completes with
    an error while the broker is Connected and a request is queued (which
    of the reader's two reads it was, and however many bytes arrived,
    makes no difference) fails the head's future with system_error(ec)
    and closes the broker. The failed request stays at the head of the
    queue, the reader's state is as it was, and no new operation is
    issued. *)
Theorem read_error_fails_head_and_closes
    host port client w i target size ec data req rest :
  reachable host port client w ->
  conn_state w = StateConnected ->
  in_flight_ (broker w) = req :: rest ->
  pending w !! i = Some (OpRead target size) ->
  (length data ≤ size)%nat ->
  ec ≠ 0 ->
  ∃ w', step (EvRead i ec data) w = Some (Returns () w')
    ∧ future_of w' req = Some (Failed (system_error ec))
    ∧ conn_state w' = StateClosed
    ∧ in_flight_ (broker w') = req :: rest
    ∧ pending w' = delete i (pending w)
    ∧ response_handler_state_ (broker w')
      = response_handler_state_ (broker w).
Proof.
  intros Hreach Hc Hq Hop Hlen Hec. unfold conn_state in Hc.
  assert (Hp : future_of w req = Some Pending).
  { eapply reachable_queue_unresolved; [done|by rewrite Hc|].
    rewrite Hq. left. }
  unfold conn_state in *. open_world w.
  unfold step, complete. cbn. rewrite Hop. cbn.
  rewrite decide_True by (split; [lia|done]).
  unfold read_completion. unfold_actor.
  unfold set_exception, promise_set, close. unfold_M.
  destruct target; crack; rewrite Hp; crack;
    (eexists; split; [reflexivity|]); cbn;
    by rewrite lookup_insert_eq.
Qed.

(** X8: in every world the program can be in, a response header whose
    correlation id is the head's but whose length prefix is below 4 (the
    four bytes of the correlation id it must count) and at least
    INT32_MIN + 4 (below that the 32-bit subtraction wraps around to a
    positive size) makes the reader throw while sizing the body buffer:
    the exception leaves the handler,
    the head's future stays unresolved, the request stays queued, the
    broker stays Connected with the reader's state at ReadResp, and no
    read is issued. *)
Theorem short_length_prefix_throws host port client w i req rest len :
  reachable host port client w ->
  conn_state w = StateConnected ->
  in_flight_ (broker w) = req :: rest ->
  response_handler_state_ (broker w) = RespHandlerStateReadHeader ->
  pending w !! i = Some (OpRead HeaderBuffer 8) ->
  length (header_buffer_ (broker w)) = 8%nat ->
  int32_min + 4 <= len < 4 ->
  ∃ e w',
    step (EvRead i 0 (be32 len ++ be32 (correlation_id (header req)))) w
    = Some (Throws e w')
    ∧ future_of w' req = Some Pending
    ∧ conn_state w' = StateConnected
    ∧ in_flight_ (broker w') = req :: rest
    ∧ pending w' = delete i (pending w)
    ∧ response_handler_state_ (broker w') = RespHandlerStateReadResp.
Proof.
  intros Hreach Hc Hq Hs Hop Hlen Hl. unfold conn_state in Hc.
  assert (Hp : future_of w req = Some Pending).
  { eapply reachable_queue_unresolved; [done|by rewrite Hc|].
    rewrite Hq. left. }
  assert (Hid : in_int32 (correlation_id (header req))).
  { destruct Hreach as [tr Hrun].
    assert (Hinv : ids_inv w).
    { eapply run_ids_inv; [|exact Hrun]. split; [by compute|]. by intros j x. }
    eapply window_in_int32; [apply Hinv|].
    unfold ids. rewrite Hq. left. }
  destruct (decode_header_be32 len (correlation_id (header req)))
    as (pd1 & pd2 & H1 & H2 & Hok); [|done|].
  { unfold in_int32, int32_min, int32_max in *. lia. }
  assert (Hd : length (be32 len ++ be32 (correlation_id (header req))) = 8%nat)
    by done.
  revert H1 Hd.
  generalize (be32 len ++ be32 (correlation_id (header req))).
  intros data H1 Hd. unfold conn_state in *. open_world w.
  unfold step, complete. cbn. rewrite Hop. cbn.
  rewrite decide_True by (split; [lia|done]).
  unfold read_completion. unfold_actor. cbn.
  rewrite fill_exact by congruence.
  rewrite H1, H2, Hok. crack.
  - eexists _, _. split; [reflexivity|]. done.
  - exfalso.
    rewrite wrap_int32_id in *
      by (unfold in_int32, int32_min, int32_max in *; lia). lia.
Qed.

(** ** Futures over every run *)

Lemma trans_resolved_final w w' h v :
  promises_inv w -> trans w w' ->
  shared w !! h = Some v -> v ≠ Pending -> shared w' !! h = Some v.
Proof.
  intros Hinv Ht Hh Hv.
  assert (Hne : ∀ h0, shared w !! h0 = Some Pending -> h0 ≠ h)
    by (intros h0 H0 ->; congruence).
  destruct Ht as [? ? ? ? Hs|f ? ? ? ? Hf Hs|? ? ? ? Hs|? ? ? ? ? Hs
                  |? ? ? ? Hs|h0 rest v0 ? ? ? ? ? ? H0 ? Hs
                  |h0 rest v0 ? ? ? ? ? H0 ? Hs
                  |h0 ? ? ? Hperm ? Hs|h0 ? ? ? ? ? Hs];
    try (by rewrite Hs).
  - rewrite Hs, lookup_insert_ne; [done|]. intros ->. congruence.
  - rewrite Hs, lookup_insert_ne; [done|]. by apply Hne.
  - rewrite Hs, lookup_insert_ne; [done|]. by apply Hne.
  - destruct Hs as [Hs|Hs]; rewrite Hs; [done|].
    rewrite lookup_insert_ne; [done|]. apply Hne.
    apply (pi_posted w Hinv). unfold posted in *. rewrite Hperm. left.
Qed.

Lemma run_resolved_final tr : ∀ w w' h v,
  promises_inv w -> run tr w = Some w' ->
  shared w !! h = Some v -> v ≠ Pending -> shared w' !! h = Some v.
Proof.
  induction tr as [|e tr IH]; intros w w' h v Hinv Hrun Hh Hv; cbn in Hrun.
  - by simplify_eq.
  - destruct (step e w) as [o|] eqn:Hstep; [|done].
    assert (∀ w1, final_world o = Some w1 ->
                  promises_inv w1 ∧ shared w1 !! h = Some v) as Hnext.
    { intros w1 Hw1. pose proof (step_trans _ _ _ _ Hstep Hw1) as Ht.
      split; [by eapply promises_inv_trans|by eapply trans_resolved_final]. }
    destruct o as [a w0|x w0| |]; try done;
      (destruct (Hnext w0) as [Hi0 Hh0]; [done|]; by apply (IH w0 w' h v)).
Qed.

(** X9: a future is resolved at most once. Whatever a future holds in a
    world the program can be in, a value or an exception, it holds in
    every world that any further run of events leads to. *)
Theorem resolved_future_is_final host port client w tr w' h v :
  reachable host port client w ->
  run tr w = Some w' ->
  shared w !! h = Some v -> v ≠ Pending ->
  shared w' !! h = Some v.
Proof.
  intros Hr. apply run_resolved_final. by eapply reachable_promises_inv.
Qed.

(** X10: in every world the program can be in, no two requests, queued
    or still on their way to the queue, wait on the same promise, and
    each of their promises exists; at most one resolve or connect
    operation is outstanding, and none once the broker is Connected. *)
Theorem promise_handles_unique host port client w :
  reachable host port client w ->
  NoDup (queued_handles w ++ posted w)
  ∧ (∀ h, h ∈ queued_handles w ++ posted w -> is_Some (shared w !! h))
  ∧ (connect_count w ≤ 1)%nat
  ∧ (conn_state w = StateConnected -> connect_count w = 0%nat).
Proof.
  intros Hr. apply reachable_promises_inv in Hr.
  split; [apply (pi_nodup w Hr)|]. split; [|split; [apply (pi_ops w Hr)|]].
  - intros h [Hq|Hp]%elem_of_app; [by apply (pi_known w Hr)|].
    rewrite (pi_posted w Hr h Hp). by eexists.
  - intros Hc. apply (pi_idle w Hr). by right.
Qed.

(** X11: in every world the program can be in, the future of a request
    whose [push_request] has not run yet is unresolved, and as long as
    the broker is not Closed so is the future of every queued request:
    a future is resolved only when its request leaves the queue or the
    connection goes down. *)
Theorem unanswered_requests_pending host port client w :
  reachable host port client w ->
  (∀ h, h ∈ posted w -> shared w !! h = Some Pending)
  ∧ (conn_state w ≠ StateClosed ->
     ∀ req, req ∈ in_flight_ (broker w) -> future_of w req = Some Pending).
Proof.
  intros Hr. apply reachable_promises_inv in Hr.
  split; [apply (pi_posted w Hr)|].
  intros Hc req Hin. apply (pi_open w Hr); [by left|].
  unfold queued_handles. by apply list_elem_of_fmap_2.
Qed.

Lemma trans_not_init w w' :
  trans w w' -> conn_state w ≠ StateInit -> conn_state w' ≠ StateInit.
Proof. intros Ht Hc. destruct Ht; congruence. Qed.

Lemma wait_for_connect_no_resolve ms sched w :
  conn_state w ≠ StateInit ->
  ∃ r w', wait_for_connect ms sched w = Returns r w'
          ∧ pending w' = pending w.
Proof.
  intros Hc. destruct w as [b s p o]. destruct b.
  unfold conn_state in Hc. cbn in Hc.
  unfold wait_for_connect. cbn [Nat.add wait_for_connect_n].
  unfold cv_wait_for, others_ran. unfold_M. cbn.
  destruct connection_state_0; try done; [|by eexists _, _..].
  destruct sched as [|st sched]; cbn; crack; by eexists _, _.
Qed.

(** X12: the connection is started once. A broker that has left the
    Init state never comes back to it, whatever events follow, and a
    [wait_for_connect] made then returns without starting a resolve or
    any other operation. *)
Theorem init_never_reentered tr w w' ms sched :
  conn_state w ≠ StateInit ->
  run tr w = Some w' ->
  conn_state w' ≠ StateInit
  ∧ ∃ r w'', wait_for_connect ms sched w' = Returns r w''
             ∧ pending w'' = pending w'.
Proof.
  intros Hc Hrun.
  assert (Hc' : conn_state w' ≠ StateInit).
  { revert w Hc Hrun.
    induction tr as [|e tr IH]; intros w Hc Hrun; cbn in Hrun.
    - by simplify_eq.
    - destruct (step e w) as [o|] eqn:Hstep; [|done].
      assert (∀ w1, final_world o = Some w1 -> conn_state w1 ≠ StateInit)
        as Hnext.
      { intros w1 Hw1. eapply trans_not_init; [|done]. by eapply step_trans. }
      destruct o as [a w0|x w0| |]; try done;
        (apply (IH w0); [by apply Hnext|done]). }
  split; [done|]. by apply wait_for_connect_no_resolve.
Qed.

(** ** One request on the wire at a time *)

Lemma posted_requests_app a b :
  posted_requests (a ++ b) = posted_requests a ++ posted_requests b.
Proof.
  induction a as [|x a IH]; [done|].
  destruct x as [| | | |[]]; cbn; by rewrite ?IH.
Qed.

Lemma posted_requests_delete p : ∀ i op,
  p !! i = Some op ->
  Forall unsent (posted_requests p) ->
  Forall unsent (posted_requests (delete i p))
  ∧ match op with OpPost (PushRequest r) => unsent r | _ => True end.
Proof.
  induction p as [|x p IH]; intros i op Hi Hall; [done|].
  destruct i as [|i]; cbn in Hi.
  - simplify_eq. destruct op as [| | | |[]]; cbn in *; try done.
    by apply Forall_cons in Hall as [? ?].
  - change (delete (S i) (x :: p)) with (x :: delete i p).
    destruct x as [| | | |[]]; cbn [posted_requests] in *;
      try (by apply IH).
    apply Forall_cons in Hall as [Hx Hall].
    destruct (IH i op Hi Hall) as [? ?]. split; [by constructor|done].
Qed.

Lemma tail_snoc_unsent q r :
  Forall unsent (tail q) -> unsent r -> Forall unsent (tail (q ++ [r])).
Proof.
  destruct q as [|x q]; cbn; [by constructor|].
  intros. apply Forall_app. split; [done|by constructor].
Qed.

Lemma tail_unsent q : Forall unsent q -> Forall unsent (tail q).
Proof. destruct q; [done|]. by intros [? ?]%Forall_cons. Qed.

Ltac unsent_side :=
  unfold head_only_sent in *; cbn in *;
  rewrite ?posted_requests_app, ?app_nil_r in *; cbn in *;
  repeat match goal with
         | H : _ ∧ _ |- _ => destruct H
         | H : Forall unsent (_ :: _) |- _ => apply Forall_cons in H as [? ?]
         end;
  split;
  first [ done
        | by apply tail_snoc_unsent
        | by apply tail_unsent
        | by constructor
        | apply Forall_app; split; [done|by repeat constructor]
        | idtac ].

Lemma step_head_only_sent e w o w' :
  head_only_sent w ->
  step e w = Some o -> final_world o = Some w' -> head_only_sent w'.
Proof.
  intros Hinv Hstep Hfin. destruct w as [b s p out]. destruct b.
  destruct e; unfold step, complete in Hstep; cbn in Hstep.
  1-3: unfold_handlers; grind; unsent_side.
  all: destruct (p !! i) as [op|] eqn:Hop; [|done];
    destruct Hinv as [Hq Hp]; cbn in Hq, Hp;
    destruct (posted_requests_delete p i op Hop Hp) as [Hp1 Hr];
    destruct op as [| | | |[]]; try done; clear Hop Hp;
    unfold with_pending in Hstep at 1;
    cbn [broker shared pending output] in Hstep;
    revert Hp1 Hstep; generalize (delete i p); intros p1 Hp1 Hstep;
    unfold_handlers; grind; unsent_side.
Qed.

Lemma run_head_only_sent tr :
  ∀ w w', head_only_sent w -> run tr w = Some w' -> head_only_sent w'.
Proof.
  induction tr as [|e tr IH]; intros w w' Hinv Hrun; cbn in Hrun.
  - by simplify_eq.
  - destruct (step e w) as [o|] eqn:Hstep; [|done].
    assert (∀ w1, final_world o = Some w1 -> head_only_sent w1) as Hnext
      by (intros w1 Hw1; by eapply step_head_only_sent).
    destruct o as [a w0|x w0| |]; try done;
      (apply (IH w0); [by apply Hnext|done]).
Qed.

Lemma reachable_head_only_sent host port client w :
  reachable host port client w -> head_only_sent w.
Proof.
  intros [tr Hrun]. eapply run_head_only_sent; [|done].
  split; cbn; constructor.
Qed.

(** X13: in every world the program can be in, only the request at the
    head of the queue can be marked sent: every request behind it has
    [sent] false. *)
Theorem only_head_marked_sent host port client w i r :
  reachable host port client w ->
  in_flight_ (broker w) !! S i = Some r ->
  sent r = false.
Proof.
  intros Hr Hi. apply reachable_head_only_sent in Hr as [Hq _].
  destruct (in_flight_ (broker w)) as [|hd q]; [done|]. cbn in Hq, Hi.
  rewrite Forall_lookup in Hq. by apply (Hq i r).
Qed.

(** X14: in every world the program can be in, the reader runs to its
    end without calling itself: when it has delivered a response and
    popped the head, the request that becomes the head is not marked
    sent, so the nested call at the end of the ReadResp case is not
    made. One level of the recursion gives the same result as the
    reader, and is enough for it to finish. *)
Theorem reader_never_reenters host port client w ec n :
  reachable host port client w ->
  response_handler_actor_n 1 ec n w = response_handler_actor ec n w
  ∧ response_handler_actor_n 1 ec n w ≠ Exhausted.
Proof.
  intros Hr.
  cut (response_handler_actor_n 1 ec n w = response_handler_actor ec n w).
  { intros ->. split; [done|]. apply response_handler_actor_terminates. }
  apply reachable_head_only_sent in Hr as [Hq _].
  unfold response_handler_actor. cbn [response_handler_actor_n].
  unfold response_handler_actor_body. unfold_M.
  destruct (bool_decide _); [|done].
  destruct (in_flight_ (broker w)) as [|req rest] eqn:Hin; [done|].
  destruct (decide (ec ≠ 0)); [done|].
  destruct (response_handler_state_ (broker w)); [done|done|].
  cbn. destruct (response_buffer_ (broker w)) as [buf|]; [|done].
  destruct (decide (n < length buf)%nat); [done|].
  unfold set_value, promise_set, pop_front. unfold_M. cbn.
  destruct (shared w !! response_promise req) as [[]|]; try done.
  cbn. rewrite Hin. cbn. unfold promise_destroy. cbn.
  rewrite lookup_insert_eq. cbn.
  destruct rest as [|r2 rest]; [done|].
  cbn in Hq. apply Forall_cons in Hq as [Hr2 _]. unfold unsent in Hr2.
  by rewrite Hr2.
Qed.

(** ** From construction to the first response *)

Ltac sim_run :=
  repeat first
    [ progress cbn
    | rewrite lookup_insert_eq
    | case_bool_decide; try congruence
    | case_decide; try congruence; try lia; try (exfalso; tauto) ].

Lemma run_append tr1 tr2 w :
  run (tr1 ++ tr2) w
  = match run tr1 w with Some w1 => run tr2 w1 | None => None end.
Proof.
  revert w. induction tr1 as [|e tr1 IH]; intros w; cbn; [done|].
  destruct (step e w) as [[]|]; auto.
Qed.

(** The world after construction, connection, one call and the run of its
    [push_request]. *)
Lemma first_request_state host port client ms eps k body hb :
  eps ≠ [] ->
  encode_header (mkRequestHeader k KafkaApiVersion 1 client) (length body)
  = Some hb ->
  ∃ w f,
    run (first_request_trace ms eps k body) (World_new host port client)
    = Some w
    ∧ broker w
      = mkBroker client host port 2
          [mkInFlightRequest (mkRequestHeader k KafkaApiVersion 1 client)
                             body false f]
          StateConnected RespHandlerStateIdle (new_buffer 8) None
    ∧ shared w = {[ f := Pending ]}
    ∧ pending w = [OpWrite [hb; body]].
Proof.
  intros Heps He. destruct eps as [|ep next]; [done|].
  unfold first_request_trace, World_new, Broker_new.
  unfold run. unfold_handlers. sim_run.
  rewrite He.
  eexists _, _. split; [reflexivity|]. cbn.
  by repeat split.
Qed.

(** The head's write completes in full while the reader is idle: the head
    is marked sent and the reader is posted. *)
Lemma write_completes w req rest hb :
  in_flight_ (broker w) = req :: rest ->
  pending w = [OpWrite [hb; packet req]] ->
  response_handler_state_ (broker w) = RespHandlerStateIdle ->
  ∃ w1,
    step (EvWrite 0 0 (total_size [hb; packet req])) w = Some (Returns () w1)
    ∧ broker w1 = set_in_flight (set_sent true req :: rest) (broker w)
    ∧ shared w1 = shared w
    ∧ pending w1 = [OpPost (ResponseHandlerActor 0 0)].
Proof.
  intros Hq Hp Hr. open_world w.
  unfold step, complete. cbn. rewrite decide_True by done.
  unfold handle_write. unfold_M. crack.
  eexists. split; [reflexivity|]. done.
Qed.

(** The posted reader runs on a Connected broker with a request queued:
    it asks for the header. *)
Lemma reader_starts w req rest :
  connection_state_ (broker w) = StateConnected ->
  in_flight_ (broker w) = req :: rest ->
  pending w = [OpPost (ResponseHandlerActor 0 0)] ->
  response_handler_state_ (broker w) = RespHandlerStateIdle ->
  length (header_buffer_ (broker w)) = 8%nat ->
  ∃ w1,
    step (EvRun 0) w = Some (Returns () w1)
    ∧ broker w1
      = set_response_handler_state RespHandlerStateReadHeader (broker w)
    ∧ shared w1 = shared w
    ∧ pending w1 = [OpRead HeaderBuffer 8].
Proof.
  intros Hc Hq Hp Hr Hlen. open_world w.
  destruct header_buffer_0 as [|h0 hbuf]; [done|]. cbn in Hlen.
  unfold step, complete. cbn. unfold_actor. crack.
  eexists. split; [reflexivity|]. cbn. repeat split; try done.
  by rewrite Hlen.
Qed.

(** X15: on a broker fresh from its constructor, for any host, port,
    client id, key and body such that the request's header (correlation
    id 1) encodes: [wait_for_connect], a resolve that succeeds
    with at least one endpoint, a connect that succeeds, one [call] and
    the run of its [push_request] leave the broker Connected, with the
    request queued under correlation id 1 (the counter now 2), its future
    unresolved, and exactly one operation outstanding: the write of the
    encoded header followed by the body. *)
Theorem first_request_written host port client ms eps k body hb :
  eps ≠ [] ->
  encode_header (mkRequestHeader k KafkaApiVersion 1 client) (length body)
  = Some hb ->
  ∃ w f,
    run (first_request_trace ms eps k body) (World_new host port client)
    = Some w
    ∧ conn_state w = StateConnected
    ∧ in_flight_ (broker w)
      = [mkInFlightRequest (mkRequestHeader k KafkaApiVersion 1 client)
                           body false f]
    ∧ shared w !! f = Some Pending
    ∧ ctr w = 2
    ∧ pending w = [OpWrite [hb; body]].
Proof.
  intros Heps He.
  destruct (first_request_state host port client ms eps k body hb Heps He)
    as (w & f & Hrun & Hb & Hs & Hp).
  exists w, f. unfold conn_state, ctr. rewrite Hb, Hs. cbn.
  split; [done|]. repeat split; try done. apply lookup_insert_eq.
Qed.

(** X16: the same run continued: the write completes in full, the
    reader starts, the server answers [be32 (4 + K) || be32 1] and then
    K >= 1 payload bytes. The future the call returned then holds a
    decoder over exactly the payload, and the queue is empty. *)
Theorem single_request_round_trip
    host port client ms eps k body hb payload :
  eps ≠ [] ->
  encode_header (mkRequestHeader k KafkaApiVersion 1 client) (length body)
  = Some hb ->
  (1 ≤ length payload)%nat ->
  4 + Z.of_nat (length payload) <= int32_max ->
  ∃ w f,
    run (round_trip_trace ms eps k body hb payload)
        (World_new host port client) = Some w
    ∧ shared w !! f = Some (Ready (PacketDecoder_new payload))
    ∧ in_flight_ (broker w) = [].
Proof.
  intros Heps He Hk Hmax.
  destruct (first_request_state host port client ms eps k body hb Heps He)
    as (w0 & f & Hrun & Hb0 & Hs0 & Hp0).
  set (req := mkInFlightRequest
                (mkRequestHeader k KafkaApiVersion 1 client) body false f)
    in *.
  destruct (write_completes w0 req [] hb) as (w1 & H1 & Hb1 & Hs1 & Hp1);
    [by rewrite Hb0|done|by rewrite Hb0|].
  destruct (reader_starts w1 (set_sent true req) [])
    as (w2 & H2 & Hb2 & Hs2 & Hp2);
    [by rewrite Hb1, Hb0|by rewrite Hb1, Hb0|done
    |by rewrite Hb1, Hb0|by rewrite Hb1, Hb0|].
  destruct (response_delivery w2 0 (set_sent true req) [] payload)
    as (w3 & H3 & _ & Hp3 & w4 & H4 & Hf4 & Hq4);
    try (by rewrite Hb2, Hb1, Hb0); try done.
  { unfold future_of. rewrite Hs2, Hs1, Hs0. apply lookup_insert_eq. }
  { by rewrite Hp2. }
  exists w4, f. unfold round_trip_trace. rewrite run_append, Hrun.
  cbn [run]. cbn [packet req] in H1. rewrite H1, H2.
  cbn [header correlation_id set_sent req] in H3. rewrite H3.
  rewrite Hp2 in H4.
  change (length (delete 0%nat [OpRead HeaderBuffer 8])) with 0%nat in H4.
  rewrite H4.
  by split.
Qed.

End BrokerCode.

(** ** Byte slices *)

Lemma string_app_cons c (a b : string) :
  String c a +:+ b = String c (a +:+ b).
Proof. reflexivity. Qed.

Lemma string_app_assoc (a b c : string) : (a +:+ b) +:+ c = a +:+ (b +:+ c).
Proof. induction a; [done|]. rewrite !string_app_cons. by f_equal. Qed.

Lemma string_app_nil_r (a : string) : a +:+ "" = a.
Proof. induction a; [done|]. rewrite string_app_cons. by f_equal. Qed.

(** A byte prints as exactly two digits, its high and low half. *)
Lemma put_hex_byte b :
  ∃ hi lo, put_hex 2 "0" (byte_to_Z b) = String hi (String lo "")
           ∧ hex_value hi = Some (byte_to_Z b / 16)
           ∧ hex_value lo = Some (byte_to_Z b mod 16).
Proof.
  destruct b;
    (eexists _, _; split; [vm_compute; reflexivity|];
     split; vm_compute; reflexivity).
Qed.

Lemma hex_loop_acc data ostr : hex_loop data ostr = ostr +:+ hex_loop data "".
Proof.
  revert ostr. induction data as [|b data IH]; intros ostr; cbn.
  - by rewrite string_app_nil_r.
  - rewrite IH, (IH ("" +:+ _)). by rewrite string_app_assoc.
Qed.

Lemma hex_loop_cons b data :
  hex_loop (b :: data) "" = put_hex 2 "0" (byte_to_Z b) +:+ hex_loop data "".
Proof. cbn. apply hex_loop_acc. Qed.

Lemma hex_loop_app a b :
  hex_loop (a ++ b) "" = hex_loop a "" +:+ hex_loop b "".
Proof.
  induction a as [|x a IH]; [done|].
  rewrite <- app_comm_cons, !hex_loop_cons, IH. by rewrite string_app_assoc.
Qed.

Lemma hex_loop_step b s :
  ∃ hi lo, hex_loop (b :: s) "" = String hi (String lo (hex_loop s ""))
           ∧ hex_value hi = Some (byte_to_Z b / 16)
           ∧ hex_value lo = Some (byte_to_Z b mod 16).
Proof.
  destruct (put_hex_byte b) as (hi & lo & Hb & Hhi & Hlo).
  exists hi, lo. by rewrite hex_loop_cons, Hb.
Qed.

Lemma byte_of_to_Z b : byte_of_Z (byte_to_Z b) = b.
Proof. by destruct b. Qed.

Lemma byte_to_Z_inj a b : byte_to_Z a = byte_to_Z b -> a = b.
Proof. intros H. by rewrite <- (byte_of_to_Z a), H, byte_of_to_Z. Qed.

Lemma unhex_hex_loop s : unhex (hex_loop s "") = Some s.
Proof.
  induction s as [|b s IH]; [done|].
  destruct (hex_loop_step b s) as (hi & lo & -> & Hhi & Hlo).
  cbn [unhex]. rewrite Hhi, Hlo. cbn. rewrite IH. cbn.
  f_equal. f_equal. rewrite <- (byte_of_to_Z b) at 3. f_equal.
  pose proof (Z.div_mod (byte_to_Z b) 16). lia.
Qed.

Lemma hex_loop_prefix p : ∀ s rest,
  hex_loop s "" = hex_loop p "" +:+ rest -> p `prefix_of` s.
Proof.
  induction p as [|b p IH]; intros s rest H; [apply prefix_nil|].
  destruct (hex_loop_step b p) as (hi & lo & Hb & Hhi & Hlo).
  rewrite Hb in H. destruct s as [|a s]; [done|].
  destruct (hex_loop_step a s) as (hi' & lo' & Ha & Hhi' & Hlo').
  rewrite Ha, !string_app_cons in H. injection H as -> -> H.
  assert (a = b) as ->.
  { apply byte_to_Z_inj. rewrite Hhi in Hhi'. rewrite Hlo in Hlo'.
    pose proof (Z.div_mod (byte_to_Z a) 16).
    pose proof (Z.div_mod (byte_to_Z b) 16).
    simplify_eq. lia. }
  apply prefix_cons. by eapply IH.
Qed.

Lemma memcmp_prefix p : ∀ s,
  (length p ≤ length s)%nat ->
  ∃ r, memcmp s p (length p) = Some r ∧ (r = 0 ↔ p `prefix_of` s).
Proof.
  induction p as [|b p IH]; intros s Hlen.
  - exists 0. split; [reflexivity|].
    split; [intros _; apply prefix_nil|reflexivity].
  - destruct s as [|a s]; [cbn in Hlen; lia|]. cbn in Hlen.
    cbn [length memcmp].
    destruct (decide (byte_to_Z a = byte_to_Z b)) as [Hab|Hab].
    + apply byte_to_Z_inj in Hab as ->.
      destruct (IH s) as (r & -> & Hr); [lia|]. exists r. split; [done|].
      rewrite Hr. split; [apply prefix_cons|apply prefix_cons_inv_2].
    + eexists. split; [done|]. split; [lia|].
      intros Hp. apply prefix_cons_inv_1 in Hp. congruence.
Qed.

Lemma starts_with_spec s p :
  ∃ b, starts_with s p = Some b ∧ (b = true ↔ p `prefix_of` s).
Proof.
  unfold starts_with.
  destruct (decide (length p ≤ length s)%nat) as [Hlen|Hlen].
  - destruct (memcmp_prefix p s Hlen) as (r & -> & Hr). cbn.
    eexists. split; [done|]. by rewrite bool_decide_eq_true.
  - exists false. split; [done|]. split; [done|].
    intros Hp. apply prefix_length in Hp. lia.
Qed.

Lemma starts_with_true s p : starts_with s p = Some true ↔ p `prefix_of` s.
Proof.
  destruct (starts_with_spec s p) as (b & -> & Hb). rewrite <- Hb.
  split; congruence.
Qed.

(** X18: [hex] of a slice of fewer than 2^32 bytes returns a string of
    exactly two characters per byte, each of them one of
    [0123456789abcdef]. *)
Theorem hex_two_digits_per_byte s :
  Z.of_nat (length s) < 2 ^ 32 ->
  ∃ out, hex s = Some out
    ∧ String.length out = (2 * length s)%nat
    ∧ Forall (fun c => is_Some (hex_value c))
             (String.list_ascii_of_string out).
Proof.
  intros Hlen. unfold hex. rewrite decide_True by done.
  eexists. split; [done|]. clear Hlen.
  induction s as [|b s [IH1 IH2]]; [by split|].
  destruct (hex_loop_step b s) as (hi & lo & -> & Hhi & Hlo).
  cbn [String.length String.list_ascii_of_string length]. split; [lia|].
  repeat constructor; by eauto.
Qed.

(** X19: [hex] loses nothing: reading its result back, two digits per
    byte with the first digit the high half, gives the bytes of the
    slice. *)
Theorem hex_round_trip s out : hex s = Some out -> unhex out = Some s.
Proof.
  unfold hex. destruct (decide _); [|done]. intros [= <-].
  apply unhex_hex_loop.
Qed.

(** X20: [hex] goes through concatenation: the hex string of two slices
    laid end to end (fewer than 2^32 bytes together) is the hex string of
    the first followed by that of the second. *)
Theorem hex_app a b :
  Z.of_nat (length (a ++ b)) < 2 ^ 32 ->
  ∃ oa ob, hex a = Some oa ∧ hex b = Some ob
           ∧ hex (a ++ b) = Some (oa +:+ ob).
Proof.
  intros Hlen. unfold hex. rewrite length_app in Hlen |- *.
  rewrite !decide_True by lia.
  eexists _, _. split; [done|]. split; [done|]. by rewrite hex_loop_app.
Qed.

(** X21: [starts_with] always gives an answer without reading past the
    end of either slice, and the answer is true exactly when the slice
    is the prefix followed by some (possibly no) further bytes; so the
    empty prefix always matches and a longer one never does. *)
Theorem starts_with_prefix s p :
  ∃ b, starts_with s p = Some b ∧ (b = true ↔ ∃ rest, s = p ++ rest).
Proof. apply starts_with_spec. Qed.

(** X22: [starts_with] is transitive: a prefix of a prefix of a slice is
    a prefix of the slice. *)
Theorem starts_with_trans s p q :
  starts_with s p = Some true -> starts_with p q = Some true ->
  starts_with s q = Some true.
Proof.
  rewrite !starts_with_true. intros H1 H2. by etrans.
Qed.

(** X23: [hex] and [starts_with] agree: one slice starts with another
    exactly when its hex string starts with the other's hex string. *)
Theorem starts_with_hex s p hs hp :
  hex s = Some hs -> hex p = Some hp ->
  starts_with s p = Some true ↔ ∃ rest, hs = hp +:+ rest.
Proof.
  unfold hex. destruct (decide _); [|done]. destruct (decide _); [|done].
  intros [= <-] [= <-]. rewrite starts_with_true. split.
  - intros [rest ->]. exists (hex_loop rest ""). apply hex_loop_app.
  - intros [rest H]. by eapply hex_loop_prefix.
Qed.

(** ** Concrete runs *)

Ltac unfold_run :=
  unfold run, step, complete, read_completion, call, push_request,
    handle_resolve, handle_connect, handle_write,
    response_handler_actor, wait_for_connect;
  cbn [response_handler_actor_n wait_for_connect_n length Nat.add];
  unfold response_handler_actor_body;
  unfold write_next_request, close, set_value, set_exception, pop_front,
    buffer_at0, cv_wait_for;
  unfold promise_set, promise_destroy, others_ran, spec_encode_header;
  unfold is_connected, is_closed;
  unfold mbind, mret, M_bind, M_ret, get_broker, get_world, modify_broker,
    emit, submit, throw, undefined, exhausted.

Ltac sim :=
  repeat first
    [ progress cbn
    | rewrite lookup_insert_eq
    | case_bool_decide; try congruence
    | case_decide; try congruence; try lia ].

Lemma run_app v enc tr1 tr2 w :
  run v enc (tr1 ++ tr2) w
  = match run v enc tr1 w with Some w1 => run v enc tr2 w1 | None => None end.
Proof.
  revert w. induction tr1 as [|e tr1 IH]; intros w; cbn; [done|].
  destruct (step v enc e w) as [[]|]; auto.
Qed.

(** One request whose write fails takes a quiet broker to a quiet broker
    with the counter advanced. *)
Lemma quiet_cycle c w :
  quiet c w ->
  ∃ w', run 0 spec_encode_header [EvCall 18 []; EvRun 0; EvWrite 0 104 0] w
        = Some w'
        ∧ quiet (wrap_int32 (c + 1)) w'.
Proof.
  intros (Hc & Hq & Hp & Hn & Hid). destruct w as [b s p o]. destruct b.
  cbn in *. subst. unfold_run. sim.
  eexists. split; [done|]. by repeat split.
Qed.

Lemma quiet_advance k :
  0 <= k -> ∀ c w, in_int32 c -> c + k <= int32_max -> quiet c w ->
  ∃ tr w', run 0 spec_encode_header tr w = Some w' ∧ quiet (c + k) w'.
Proof.
  intros Hk. pattern k. apply natlike_ind; [| |done].
  - intros c w _ _ Hq. exists [], w. split; [done|]. by rewrite Z.add_0_r.
  - clear k Hk. intros k Hk IH c w Hc Hmax Hq.
    destruct (quiet_cycle c w Hq) as (w1 & Hrun1 & Hq1).
    rewrite wrap_int32_id in Hq1
      by (unfold in_int32, int32_min, int32_max in *; lia).
    destruct (IH (c + 1) w1) as (tr & w2 & Hrun2 & Hq2); [..|done|].
    { unfold in_int32, int32_min, int32_max in *; lia. }
    { lia. }
    exists ([EvCall 18 []; EvRun 0; EvWrite 0 104 0] ++ tr), w2.
    rewrite run_app, Hrun1. split; [done|].
    by replace (c + Z.succ k) with (c + 1 + k) by lia.
Qed.

Lemma connect_quiet :
  ∃ w, run 0 spec_encode_header connect_trace (World_new "kafka1" 9092 "c1")
       = Some w ∧ quiet 1 w.
Proof. eexists. split; [vm_compute; reflexivity|]. by repeat split. Qed.

Lemma wrap_pair c w :
  quiet c w ->
  ∃ w', run 0 spec_encode_header
            [EvCall 18 []; EvRun 0; EvCall 18 []; EvRun 1] w = Some w'
        ∧ ids w' = [c; wrap_int32 (c + 1)].
Proof.
  intros (Hc & Hq & Hp & Hn & Hid). destruct w as [b s p o]. destruct b.
  cbn in *. subst. unfold_run. sim.
  eexists. split; [done|]. done.
Qed.

(** After 2^31 - 2 requests have come and gone the counter is INT32_MAX;
    two more requests leave the queue holding INT32_MAX, INT32_MIN. *)
Lemma ids_decrease_at_wrap :
  ¬ (∀ w, reachable 0 spec_encode_header "kafka1" 9092 "c1" w ->
          strictly_increasing (ids w)).
Proof.
  intros Hall.
  destruct connect_quiet as (w0 & Hrun0 & Hq0).
  destruct (quiet_advance (int32_max - 1) ltac:(by compute) 1 w0)
    as (tr & w1 & Hrun1 & Hq1); [by compute|by compute|done|].
  replace (1 + (int32_max - 1)) with int32_max in Hq1 by lia.
  destruct (wrap_pair _ _ Hq1) as (w2 & Hrun2 & Hids).
  assert (reachable 0 spec_encode_header "kafka1" 9092 "c1" w2) as Hreach.
  { eexists (connect_trace ++ tr ++ _).
    rewrite run_app, Hrun0, run_app, Hrun1. exact Hrun2. }
  specialize (Hall _ Hreach 0%nat 1%nat int32_max (wrap_int32 (int32_max + 1))).
  rewrite Hids in Hall. specialize (Hall ltac:(lia) eq_refl eq_refl).
  by compute in Hall.
Qed.

(** The same 2^31 - 2 requests later, the next enqueue takes the counter
    from INT32_MAX to INT32_MIN. *)
Lemma counter_wraps_at_int32_max :
  ¬ (∀ w req w',
       reachable 0 spec_encode_header "kafka1" 9092 "c1" w ->
       connection_state_ (broker w) ≠ StateClosed ->
       push_request spec_encode_header req w = Returns () w' ->
       ctr w' = ctr w + 1).
Proof.
  intros Hall.
  destruct connect_quiet as (w0 & Hrun0 & Hq0).
  destruct (quiet_advance (int32_max - 1) ltac:(by compute) 1 w0)
    as (tr & w1 & Hrun1 & Hq1); [by compute|by compute|done|].
  replace (1 + (int32_max - 1)) with int32_max in Hq1 by lia.
  destruct Hq1 as (Hc & _ & _ & Hn & _).
  assert (Hopen : connection_state_ (broker w1) ≠ StateClosed)
    by (by rewrite Hc).
  destruct (push_request_open spec_encode_header w1 (sample_request 0 0 false)
              Hopen) as (w2 & Hpush & Hctr & _).
  assert (reachable 0 spec_encode_header "kafka1" 9092 "c1" w1) as Hreach.
  { exists (connect_trace ++ tr). by rewrite run_app, Hrun0. }
  specialize (Hall _ _ _ Hreach Hopen Hpush).
  rewrite Hctr in Hall. unfold ctr in Hall. rewrite Hn in Hall.
  by compute in Hall.
Qed.

(** While the broker is still connecting nothing leaves the queue. *)
Lemma stalled_start :
  ∃ w, run 0 spec_encode_header [EvWaitForConnect 0]
           (World_new "kafka1" 9092 "c1") = Some w
       ∧ stalled 0 w.
Proof. eexists. split; [vm_compute; reflexivity|]. by repeat split. Qed.

Lemma stalled_step n w :
  stalled n w ->
  ∃ w', run 0 spec_encode_header [EvCall 18 []; EvRun 1] w = Some w'
        ∧ stalled (n + 1) w'.
Proof.
  intros (Hc & Hq & Hp). destruct w as [b s p o]. destruct b.
  cbn in *. subst. unfold_run. sim.
  eexists. split; [done|]. repeat split; cbn; try done.
  rewrite length_app. cbn. lia.
Qed.

Lemma stalled_advance k :
  0 <= k -> ∀ n w, stalled n w ->
  ∃ tr w', run 0 spec_encode_header tr w = Some w' ∧ stalled (n + k) w'.
Proof.
  intros Hk. pattern k. apply natlike_ind; [| |done].
  - intros n w Hs. exists [], w. split; [done|]. by rewrite Z.add_0_r.
  - clear k Hk. intros k Hk IH n w Hs.
    destruct (stalled_step n w Hs) as (w1 & Hrun1 & Hs1).
    destruct (IH (n + 1) w1 Hs1) as (tr & w2 & Hrun2 & Hs2).
    exists ([EvCall 18 []; EvRun 1] ++ tr), w2.
    rewrite run_app, Hrun1. split; [done|].
    by replace (n + Z.succ k) with (n + 1 + k) by lia.
Qed.

Lemma wrap_int32_period a : wrap_int32 (a + 2 ^ 32) = wrap_int32 a.
Proof.
  unfold wrap_int32. f_equal.
  replace (a + 2 ^ 32 + 2 ^ 31) with (a + 2 ^ 31 + 1 * 2 ^ 32) by lia.
  apply Z_mod_plus_full.
Qed.

(** With 2^32 + 1 requests queued the first and the last carry the same
    id. *)
Lemma ids_repeat_in_long_queue :
  ¬ (∀ w, reachable 0 spec_encode_header "kafka1" 9092 "c1" w ->
          NoDup (ids w)).
Proof.
  intros Hall.
  destruct stalled_start as (w0 & Hrun0 & Hs0).
  destruct (stalled_advance (2 ^ 32 + 1) ltac:(by compute) 0 w0 Hs0)
    as (tr & w1 & Hrun1 & (_ & Hlen & _)).
  assert (Hrun : run 0 spec_encode_header ([EvWaitForConnect 0] ++ tr)
                     (World_new "kafka1" 9092 "c1") = Some w1)
    by (by rewrite run_app, Hrun0).
  assert (ids_inv w1) as [_ Hw].
  { eapply run_ids_inv; [|exact Hrun]. split; [by compute|]. by intros i x. }
  specialize (Hall w1 (ex_intro _ _ Hrun)).
  assert (Hl : Z.of_nat (length (ids w1)) = 2 ^ 32 + 1).
  { unfold ids. rewrite length_map. lia. }
  destruct (lookup_lt_is_Some_2 (ids w1) 0%nat) as [x Hx]; [lia|].
  destruct (lookup_lt_is_Some_2 (ids w1) (Z.to_nat (2 ^ 32))) as [y Hy];
    [lia|].
  assert (x = y).
  { rewrite (Hw _ _ Hx), (Hw _ _ Hy), Hl, <- wrap_int32_period.
    f_equal. lia. }
  subst y. pose proof (proj1 (NoDup_alt _) Hall _ _ _ Hx Hy). lia.
Qed.

(** C9 does not hold as an invariant of plain integers: at the wrap the
    counter does not grow by one, the queued ids are not increasing, and
    a queue longer than 2^32 repeats an id. *)
Lemma correlation_ids_break_at_wrap :
  ¬ (∀ w req w',
       reachable 0 spec_encode_header "kafka1" 9092 "c1" w ->
       connection_state_ (broker w) ≠ StateClosed ->
       push_request spec_encode_header req w = Returns () w' ->
       ctr w' = ctr w + 1)
  ∧ ¬ (∀ w, reachable 0 spec_encode_header "kafka1" 9092 "c1" w ->
            strictly_increasing (ids w))
  ∧ ¬ (∀ w, reachable 0 spec_encode_header "kafka1" 9092 "c1" w ->
            NoDup (ids w)).
Proof.
  split; [exact counter_wraps_at_int32_max|].
  split; [exact ids_decrease_at_wrap|exact ids_repeat_in_long_queue].
Qed.

(** ** The theorems at concrete inputs *)

Lemma response_handler_actor_inert_witness :
  let w := sample_world StateClosed [sample_request 1 0 true]
                        RespHandlerStateReadHeader hb0 None [] in
  response_handler_actor 104 0 w = Returns () w.
Proof.
  intros w. apply (response_handler_actor_inert 104 0 w).
  left. discriminate.
Defined.

Lemma correlation_mismatch_witness :
  let req := sample_request 1 0 true in
  let w := sample_world StateConnected [req] RespHandlerStateReadHeader
                        (be32 4 ++ be32 42) None [] in
  ∃ w', response_handler_actor 0 8 w = Returns () w'
        ∧ future_of w' req
          = Some (Failed (runtime_error "Correlation ID mismatch"))
        ∧ connection_state_ (broker w') = StateClosed
        ∧ in_flight_ (broker w') = [req]
        ∧ (∀ p, p ≠ response_promise req -> shared w' !! p = shared w !! p)
        ∧ pending w' = pending w.
Proof.
  intros req w.
  apply (correlation_mismatch_fails_head_and_closes w req [] 8
           (mkPacketDecoder (be32 4 ++ be32 42) 4 None) 4
           (mkPacketDecoder (be32 4 ++ be32 42) 8 None) 42);
    try reflexivity.
  discriminate.
Defined.

Lemma handle_write_by_head_promise_witness :
  let req := sample_request 1 0 false in
  let rest := [sample_request 2 1 false] in
  let w := sample_world StateConnected (req :: rest) RespHandlerStateIdle
                        hb0 None [] in
  let head := sample_request 1 0 true in
  (∃ w', handle_write 104 0 w = Returns () w'
         ∧ future_of w' req = Some (Failed (system_error 104))
         ∧ in_flight_ (broker w') = rest
         ∧ connection_state_ (broker w') = StateConnected
         ∧ pending w' = [])
  ∧ (∃ w', handle_write 0 16 w = Returns () w'
           ∧ in_flight_ (broker w') = set_sent true req :: rest
           ∧ shared w' = shared w
           ∧ connection_state_ (broker w') = StateConnected
           ∧ pending w' = [OpPost (ResponseHandlerActor 0 0)])
  ∧ (∃ ws, run 0 spec_encode_header stale_write_trace
               (World_new "kafka1" 9092 "c1") = Some ws
       ∧ connection_state_ (broker ws) = StateClosed
       ∧ in_flight_ (broker ws) = head :: rest
       ∧ future_of ws head = Some (Failed (system_error 104))
       ∧ ∃ w', step 0 spec_encode_header (EvWrite 0 32 0) ws
               = Some (Throws (future_error promise_already_satisfied) w')
         ∧ future_of w' head = Some (Failed (system_error 104))
         ∧ in_flight_ (broker w') = head :: rest).
Proof.
  intros req rest w head. split; [|split].
  - apply (proj1 (handle_write_by_head_promise w req rest 104 0 eq_refl)).
    + discriminate.
    + reflexivity.
  - apply (proj2 (proj2 (handle_write_by_head_promise w req rest 0 16
                           eq_refl))).
    reflexivity.
  - eexists. split; [vm_compute; reflexivity|].
    split; [reflexivity|]. split; [reflexivity|].
    split; [vm_compute; reflexivity|].
    match goal with
    | |- ∃ w', step _ _ _ ?ws = _ ∧ _ =>
      assert (Hstep : step 0 spec_encode_header (EvWrite 0 32 0) ws
                      = Some (handle_write 32 0
                                (with_pending (delete 0%nat) ws)))
        by (vm_compute; reflexivity);
      assert (Hf : future_of (with_pending (delete 0%nat) ws) head
                   = Some (Failed (system_error 104)))
        by (vm_compute; reflexivity);
      destruct (proj1 (proj2 (handle_write_by_head_promise
                                (with_pending (delete 0%nat) ws)
                                head rest 32 0 eq_refl))
                  ltac:(discriminate) (Failed (system_error 104)) Hf
                  ltac:(discriminate))
        as (w' & Hw & Hfw & _ & Hq & _)
    end.
    exists w'. rewrite Hstep, Hw. by repeat split.
Defined.

Lemma write_next_request_encode_failure_witness :
  let w := sample_world StateConnected [unencodable_request]
                        RespHandlerStateIdle hb0 None [] in
  spec_encode_header (header unencodable_request) 0 = None
  ∧ write_next_request spec_encode_header w
    = Returns () (with_output (fun o => o ++ [Log "write_next_request"]) w).
Proof.
  intros w.
  assert (He : spec_encode_header (header unencodable_request) 0 = None)
    by (vm_compute; reflexivity).
  split; [exact He|].
  apply (write_next_request_encode_failure spec_encode_header w
           unencodable_request [] eq_refl eq_refl He).
Defined.

Lemma push_request_spec_witness :
  let req := mkInFlightRequest (sample_header 0) [] false 1 in
  let wc := sample_world StateClosed [] RespHandlerStateIdle hb0 None [] in
  let wo := sample_world StateConnected [sample_request 1 0 true]
                         RespHandlerStateReadHeader hb0 None [] in
  (∃ w', push_request spec_encode_header req wc = Returns () w'
         ∧ broker w' = broker wc
         ∧ pending w' = []
         ∧ future_of w' req = Some (Failed (future_error broken_promise)))
  ∧ (∃ w', push_request spec_encode_header req wo = Returns () w'
           ∧ next_correlation_id_ (broker w') = 3
           ∧ in_flight_ (broker w')
             = [sample_request 1 0 true; set_correlation_id 2 req]).
Proof.
  intros req wc wo. split.
  - destruct (proj1 (push_request_spec spec_encode_header wc req) eq_refl)
      as (w' & Hr & Hb & Hp & _ & _ & Hf).
    exists w'. repeat split; [exact Hr|exact Hb|exact Hp|].
    apply Hf. reflexivity.
  - destruct (proj2 (push_request_spec spec_encode_header wo req))
      as (w' & Hr & _ & Hn & Hq & _); [discriminate|].
    exists w'. repeat split; [exact Hr|exact Hn|exact Hq].
Defined.

Lemma read_body_completion_witness :
  let req := sample_request 1 0 true in
  let w := sample_world StateConnected [req] RespHandlerStateReadResp
                        hb0 (Some [x07; x08]) [] in
  (∃ w', response_handler_actor 0 1 w = Returns () w'
         ∧ future_of w' req
           = Some (Failed (runtime_error "Not enough bytes read"))
         ∧ connection_state_ (broker w') = StateClosed
         ∧ in_flight_ (broker w') = [req])
  ∧ (∃ w', final_world (response_handler_actor 0 2 w) = Some w'
           ∧ future_of w' req = Some (Ready (PacketDecoder_new [x07; x08]))
           ∧ connection_state_ (broker w') = StateConnected
           ∧ in_flight_ (broker w') = []).
Proof.
  intros req w. split.
  - refine (proj1 (proj2 (read_body_completion w req [] [x07; x08] 0 1
                            eq_refl eq_refl eq_refl eq_refl eq_refl _))
                  eq_refl _).
    + cbn. lia.
    + discriminate.
  - refine (proj1 (proj2 (proj2
              (read_body_completion w req [] [x07; x08] 0 2
                 eq_refl eq_refl eq_refl eq_refl eq_refl _)))
              eq_refl eq_refl).
    cbn. lia.
Defined.

(** C7 does not hold for a short read: a body read of 2 bytes that ends
    after 1 byte with an error code (the peer closed) fails the head with
    that system error, not with "Not enough bytes read". *)
Lemma short_body_reported_as_system_error :
  let req := sample_request 1 0 true in
  let w := sample_world StateConnected [req] RespHandlerStateReadResp
                        hb0 (Some (new_buffer 2)) [OpRead ResponseBuffer 2] in
  ∃ w', step 0 spec_encode_header (EvRead 0 2 [x07]) w = Some (Returns () w')
        ∧ length [x07] ≠ 2%nat
        ∧ connection_state_ (broker w') = StateClosed
        ∧ future_of w' req = Some (Failed (system_error 2))
        ∧ future_of w' req
          ≠ Some (Failed (runtime_error "Not enough bytes read")).
Proof.
  intros req w. eexists. split; [vm_compute; reflexivity|].
  repeat split; try reflexivity; discriminate.
Qed.

Lemma reader_after_completed_response_witness :
  let req := sample_request 1 0 true in
  let r2 := sample_request 2 1 false in
  let w := sample_world StateConnected [req; r2] RespHandlerStateReadResp
                        hb0 (Some [x07]) [] in
  ∃ w', response_handler_actor 0 1 w = Returns () w'
        ∧ future_of w' req = Some (Ready (PacketDecoder_new [x07]))
        ∧ in_flight_ (broker w') = [r2]
        ∧ response_handler_state_ (broker w') = RespHandlerStateIdle
        ∧ pending w' = []
        ∧ output w' = [Log "response_handler_actor ReadResp -> Idle ec:"].
Proof.
  intros req r2 w.
  destruct (reader_after_completed_response w req r2 [] [x07] 1
              eq_refl eq_refl eq_refl eq_refl)
    as (w' & Hr & Hf & Hq & _ & Hunsent).
  - cbn. lia.
  - reflexivity.
  - discriminate.
  - destruct (Hunsent eq_refl) as (Hs & Hp & Ho).
    exists w'. repeat split; assumption.
Defined.

Lemma empty_body_response_throws_witness :
  let req := sample_request 1 0 true in
  let w := sample_world StateConnected [req] RespHandlerStateReadHeader
                        hb0 None [OpRead HeaderBuffer 8] in
  ∃ w', step 0 spec_encode_header (EvRead 0 0 (be32 4 ++ be32 1)) w
        = Some (Throws out_of_range w')
        ∧ shared w' = shared w
        ∧ in_flight_ (broker w') = [req]
        ∧ connection_state_ (broker w') = StateConnected
        ∧ response_handler_state_ (broker w') = RespHandlerStateReadResp
        ∧ response_buffer_ (broker w') = Some []
        ∧ pending w' = [].
Proof.
  intros req w.
  apply (empty_body_response_throws 0 spec_encode_header w 0 req []);
    try reflexivity.
  unfold in_int32, int32_min, int32_max. cbn. lia.
Defined.

Lemma wait_for_connect_by_state_witness :
  let w := World_new "kafka1" 9092 "c1" in
  ∃ r w', wait_for_connect 50 [StateConnecting; StateClosed] w = Returns r w'
          ∧ pending w' = [OpResolve "kafka1" 9092]
          ∧ connection_state_ (broker w') = StateClosed
          ∧ r = network_fail.
Proof.
  intros w.
  destruct (proj2 (proj2 (proj2
              (wait_for_connect_by_state w 50 [StateConnecting; StateClosed]
                 ltac:(repeat constructor; discriminate)))) eq_refl)
    as (r & w' & Hr & _ & _ & Hp & _ & _ & _ & _ & Hclosed).
  exists r, w'.
  assert (Hs : connection_state_ (broker w') = StateClosed).
  { vm_compute in Hr. by injection Hr as <- <-. }
  repeat split; [exact Hr|exact Hp|exact Hs|exact (Hclosed Hs)].
Defined.

Lemma correlation_ids_window_witness :
  ∃ w, run 0 spec_encode_header two_requests_trace
           (World_new "kafka1" 9092 "c1") = Some w
       ∧ ids w = [1; 2]
       ∧ ctr w = 3
       ∧ strictly_increasing (ids w)
       ∧ NoDup (ids w).
Proof.
  eexists. split; [vm_compute; reflexivity|].
  match goal with
  | |- ids ?w = _ ∧ _ =>
    assert (reachable 0 spec_encode_header "kafka1" 9092 "c1" w) as Hreach
      by (exists two_requests_trace; vm_compute; reflexivity);
    destruct (correlation_ids_window 0 spec_encode_header
                "kafka1" 9092 "c1" w Hreach)
      as (_ & _ & _ & _ & _ & Hinc & Hnd)
  end.
  split; [reflexivity|]. split; [reflexivity|]. split.
  - apply Hinc. vm_compute. intros H.
    repeat (apply elem_of_cons in H as [H|H]; [discriminate|]).
    by apply elem_of_nil in H.
  - apply Hnd. vm_compute. discriminate.
Defined.

(** ** Further theorems at concrete inputs *)

Lemma call_then_push_enqueues_witness :
  let w := sample_world StateConnecting [] RespHandlerStateIdle hb0 None [] in
  ∃ f w1 w2,
    call 0 18 [] w = Returns f w1
    ∧ shared w !! f = None
    ∧ step 0 spec_encode_header (EvRun (length (pending w))) w1
      = Some (Returns () w2)
    ∧ in_flight_ (broker w2)
      = in_flight_ (broker w)
        ++ [mkInFlightRequest
              (mkRequestHeader 18 0 (ctr w) (client_id_ (broker w))) [] false f]
    ∧ ctr w2 = wrap_int32 (ctr w + 1)
    ∧ shared w2 = <[f:=Pending]> (shared w).
Proof.
  intros w. apply (call_then_push_enqueues 0 spec_encode_header w 18 []).
  discriminate.
Defined.

Lemma call_after_close_breaks_promise_witness :
  let w := sample_world StateClosed [] RespHandlerStateIdle hb0 None [] in
  ∃ f w1 w2,
    call 0 18 [] w = Returns f w1
    ∧ shared w !! f = None
    ∧ step 0 spec_encode_header (EvRun (length (pending w))) w1
      = Some (Returns () w2)
    ∧ broker w2 = broker w
    ∧ pending w2 = pending w
    ∧ shared w2 = <[f:=Failed (future_error broken_promise)]> (shared w).
Proof.
  intros w. apply (call_after_close_breaks_promise 0 spec_encode_header w 18 []).
  reflexivity.
Defined.

Lemma endpoints_tried_in_order_witness :
  let w := sample_world StateConnecting [] RespHandlerStateIdle hb0 None
                        [OpResolve "kafka1" 9092] in
  let eps := [("10.0.0.1", 9092); ("10.0.0.2", 9092)] in
  (∃ w', run 0 spec_encode_header
             (EvResolve 0 0 eps :: map (EvConnect 0) [111]) w = Some w'
         ∧ in_flight_ (broker w') = in_flight_ (broker w)
         ∧ shared w' = shared w
         ∧ pending w' = [OpConnect ("10.0.0.2", 9092) []]
         ∧ conn_state w' = conn_state w)
  ∧ (∃ w', run 0 spec_encode_header
               (EvResolve 0 0 eps :: map (EvConnect 0) [111; 111]) w = Some w'
           ∧ in_flight_ (broker w') = in_flight_ (broker w)
           ∧ shared w' = shared w
           ∧ pending w' = []
           ∧ conn_state w' = StateClosed).
Proof.
  intros w eps. split.
  - apply (endpoints_tried_in_order 0 spec_encode_header w "kafka1" 9092
             eps [111]); [reflexivity|discriminate| |cbn; lia].
    repeat constructor; discriminate.
  - apply (endpoints_tried_in_order 0 spec_encode_header w "kafka1" 9092
             eps [111; 111]); [reflexivity|discriminate| |cbn; lia].
    repeat constructor; discriminate.
Defined.

Lemma queued_request_written_on_connect_witness :
  let r := mkInFlightRequest (sample_header 0) [] false 0 in
  let w := sample_world StateConnecting [] RespHandlerStateIdle hb0 None
             [OpConnect sample_endpoint []; OpPost (PushRequest r)] in
  ∃ hb w1 w2,
    spec_encode_header (sample_header 1) 0 = Some hb
    ∧ step 0 spec_encode_header (EvRun 1) w = Some (Returns () w1)
    ∧ pending w1 = [OpConnect sample_endpoint []]
    ∧ step 0 spec_encode_header (EvConnect 0 0) w1 = Some (Returns () w2)
    ∧ conn_state w2 = StateConnected
    ∧ in_flight_ (broker w2) = [set_correlation_id (ctr w) r]
    ∧ pending w2 = [OpWrite [hb; packet r]]
    ∧ NotifyAll ∈ output w2.
Proof.
  intros r w.
  destruct (spec_encode_header (sample_header 1) 0) as [hb|] eqn:He;
    [|vm_compute in He; discriminate].
  exists hb.
  destruct (queued_request_written_on_connect 0 spec_encode_header w
              sample_endpoint [] r hb eq_refl eq_refl eq_refl eq_refl He)
    as (w1 & w2 & H).
  exists w1, w2. split; [reflexivity|exact H].
Defined.

Lemma push_request_writes_head_witness :
  let head := sample_request 1 0 false in
  let r := mkInFlightRequest (sample_header 0) [] false 1 in
  ∃ hb,
    spec_encode_header (sample_header 1) 0 = Some hb
    ∧ let w := sample_world StateConnected [head] RespHandlerStateIdle hb0
                 None [OpWrite [hb; []]] in
      ∃ w', push_request spec_encode_header r w = Returns () w'
            ∧ in_flight_ (broker w')
              = head :: [] ++ [set_correlation_id (ctr w) r]
            ∧ pending w' = [OpWrite [hb; []]; OpWrite [hb; []]].
Proof.
  intros head r.
  destruct (spec_encode_header (sample_header 1) 0) as [hb|] eqn:He;
    [|vm_compute in He; discriminate].
  exists hb. split; [reflexivity|]. intros w.
  apply (push_request_writes_head spec_encode_header w head [] hb r
           eq_refl eq_refl eq_refl He).
Defined.

Ltac reached tr :=
  match goal with
  | |- reachable _ _ _ _ _ _ => exists tr; vm_compute; reflexivity
  end.

Lemma read_error_fails_head_and_closes_witness :
  let req := sample_request 1 0 true in
  ∃ w, run 0 spec_encode_header header_read_trace
           (World_new "kafka1" 9092 "c1") = Some w
    ∧ ∃ w', step 0 spec_encode_header (EvRead 0 104 []) w
            = Some (Returns () w')
      ∧ future_of w' req = Some (Failed (system_error 104))
      ∧ conn_state w' = StateClosed
      ∧ in_flight_ (broker w') = req :: []
      ∧ pending w' = delete 0%nat (pending w)
      ∧ response_handler_state_ (broker w')
        = response_handler_state_ (broker w).
Proof.
  intros req. eexists. split; [vm_compute; reflexivity|].
  eapply (read_error_fails_head_and_closes 0 spec_encode_header
            "kafka1" 9092 "c1" _ 0 HeaderBuffer 8 104 [] req []);
    [reached header_read_trace|reflexivity|reflexivity|reflexivity
    |cbn; lia|discriminate].
Defined.

Lemma short_length_prefix_throws_witness :
  let req := sample_request 1 0 true in
  ∃ w, run 0 spec_encode_header header_read_trace
           (World_new "kafka1" 9092 "c1") = Some w
    ∧ ∃ e w',
        step 0 spec_encode_header
             (EvRead 0 0 (be32 0 ++ be32 (correlation_id (header req)))) w
        = Some (Throws e w')
        ∧ future_of w' req = Some Pending
        ∧ conn_state w' = StateConnected
        ∧ in_flight_ (broker w') = req :: []
        ∧ pending w' = delete 0%nat (pending w)
        ∧ response_handler_state_ (broker w') = RespHandlerStateReadResp.
Proof.
  intros req. eexists. split; [vm_compute; reflexivity|].
  eapply (short_length_prefix_throws 0 spec_encode_header
            "kafka1" 9092 "c1" _ 0 req [] 0);
    [reached header_read_trace|reflexivity|reflexivity|reflexivity
    |reflexivity|reflexivity|unfold int32_min; lia].
Defined.

Lemma response_delivered_witness :
  let req := sample_request 1 0 true in
  let payload := [x2a] in
  ∃ w, run 0 spec_encode_header header_read_trace
           (World_new "kafka1" 9092 "c1") = Some w
    ∧ ∃ w1,
        step 0 spec_encode_header
             (EvRead 0 0 (be32 (4 + Z.of_nat (length payload))
                            ++ be32 (correlation_id (header req)))) w
        = Some (Returns () w1)
        ∧ response_buffer_ (broker w1) = Some (new_buffer (length payload))
        ∧ pending w1
          = delete 0%nat (pending w)
            ++ [OpRead ResponseBuffer (length payload)]
        ∧ ∃ w2,
            step 0 spec_encode_header
                 (EvRead (length (delete 0%nat (pending w))) 0 payload) w1
            = Some (Returns () w2)
            ∧ future_of w2 req = Some (Ready (PacketDecoder_new payload))
            ∧ in_flight_ (broker w2) = [].
Proof.
  intros req payload. eexists. split; [vm_compute; reflexivity|].
  eapply (response_delivered 0 spec_encode_header
            "kafka1" 9092 "c1" _ 0 req [] payload);
    [reached header_read_trace|reflexivity|reflexivity|reflexivity
    |reflexivity|reflexivity
    |unfold in_int32, int32_min, int32_max; cbn; lia
    |cbn; lia|unfold int32_max; cbn; lia].
Defined.

Lemma resolved_future_is_final_witness :
  ∃ w, run 0 spec_encode_header failed_write_trace
           (World_new "kafka1" 9092 "c1") = Some w
    ∧ shared w !! 0%nat = Some (Failed (system_error 104))
    ∧ ∃ w', run 0 spec_encode_header [EvCall 18 []; EvRun 0; EvClose] w
            = Some w'
      ∧ shared w' !! 0%nat = Some (Failed (system_error 104)).
Proof.
  eexists. split; [vm_compute; reflexivity|].
  split; [vm_compute; reflexivity|].
  eexists. split; [vm_compute; reflexivity|].
  eapply (resolved_future_is_final 0 spec_encode_header "kafka1" 9092 "c1"
            _ [EvCall 18 []; EvRun 0; EvClose] _ 0%nat);
    [reached failed_write_trace|vm_compute; reflexivity
    |vm_compute; reflexivity|discriminate].
Defined.

Lemma promise_handles_unique_witness :
  ∃ w, run 0 spec_encode_header two_requests_trace
           (World_new "kafka1" 9092 "c1") = Some w
    ∧ queued_handles w = [0; 1]%nat
    ∧ NoDup (queued_handles w ++ posted w)
    ∧ (∀ h, h ∈ queued_handles w ++ posted w -> is_Some (shared w !! h))
    ∧ (connect_count w ≤ 1)%nat
    ∧ (conn_state w = StateConnected -> connect_count w = 0%nat).
Proof.
  eexists. split; [vm_compute; reflexivity|].
  split; [vm_compute; reflexivity|].
  eapply (promise_handles_unique 0 spec_encode_header "kafka1" 9092 "c1").
  reached two_requests_trace.
Defined.

Lemma unanswered_requests_pending_witness :
  ∃ w, run 0 spec_encode_header two_requests_trace
           (World_new "kafka1" 9092 "c1") = Some w
    ∧ length (in_flight_ (broker w)) = 2%nat
    ∧ (∀ h, h ∈ posted w -> shared w !! h = Some Pending)
    ∧ (conn_state w ≠ StateClosed ->
       ∀ req, req ∈ in_flight_ (broker w) -> future_of w req = Some Pending).
Proof.
  eexists. split; [vm_compute; reflexivity|].
  split; [vm_compute; reflexivity|].
  eapply (unanswered_requests_pending 0 spec_encode_header
            "kafka1" 9092 "c1").
  reached two_requests_trace.
Defined.

Lemma init_never_reentered_witness :
  ∃ w w',
    conn_state w ≠ StateInit
    ∧ run 0 spec_encode_header [EvClose; EvWaitForConnect 100] w = Some w'
    ∧ conn_state w' ≠ StateInit
    ∧ ∃ r w'', wait_for_connect 100 [] w' = Returns r w''
               ∧ pending w'' = pending w'.
Proof.
  exists (sample_world StateConnecting [] RespHandlerStateIdle hb0 None
                       [OpResolve "kafka1" 9092]).
  eexists. split; [discriminate|]. split; [vm_compute; reflexivity|].
  eapply (init_never_reentered 0 spec_encode_header
            [EvClose; EvWaitForConnect 100]
            (sample_world StateConnecting [] RespHandlerStateIdle hb0 None
                          [OpResolve "kafka1" 9092]));
    [discriminate|vm_compute; reflexivity].
Defined.

Lemma only_head_marked_sent_witness :
  ∃ w r, run 0 spec_encode_header two_requests_trace
             (World_new "kafka1" 9092 "c1") = Some w
    ∧ in_flight_ (broker w) !! 1%nat = Some r
    ∧ sent r = false.
Proof.
  eexists _, _. split; [vm_compute; reflexivity|].
  split; [vm_compute; reflexivity|].
  eapply (only_head_marked_sent 0 spec_encode_header "kafka1" 9092 "c1"
            _ 0%nat);
    [reached two_requests_trace|vm_compute; reflexivity].
Defined.

Lemma reader_never_reenters_witness :
  ∃ w, run 0 spec_encode_header body_read_trace
           (World_new "kafka1" 9092 "c1") = Some w
    ∧ length (in_flight_ (broker w)) = 2%nat
    ∧ response_handler_state_ (broker w) = RespHandlerStateReadResp
    ∧ response_handler_actor_n 1 0 1 w = response_handler_actor 0 1 w
    ∧ response_handler_actor_n 1 0 1 w ≠ Exhausted.
Proof.
  eexists. split; [vm_compute; reflexivity|].
  split; [reflexivity|]. split; [reflexivity|].
  eapply (reader_never_reenters 0 spec_encode_header "kafka1" 9092 "c1").
  reached body_read_trace.
Defined.

Lemma first_request_written_witness :
  ∃ hb w f,
    spec_encode_header (sample_header 1) 0 = Some hb
    ∧ run 0 spec_encode_header
          (first_request_trace 100 [sample_endpoint] 18 [])
          (World_new "kafka1" 9092 "c1") = Some w
    ∧ conn_state w = StateConnected
    ∧ in_flight_ (broker w)
      = [mkInFlightRequest (mkRequestHeader 18 0 1 "c1") [] false f]
    ∧ shared w !! f = Some Pending
    ∧ ctr w = 2
    ∧ pending w = [OpWrite [hb; []]].
Proof.
  destruct (spec_encode_header (sample_header 1) 0) as [hb|] eqn:He;
    [|vm_compute in He; discriminate].
  exists hb.
  destruct (first_request_written 0 spec_encode_header "kafka1" 9092 "c1"
              100 [sample_endpoint] 18 [] hb) as (w & f & H);
    [discriminate|exact He|].
  exists w, f. split; [reflexivity|exact H].
Defined.

Lemma single_request_round_trip_witness :
  ∃ hb w f,
    spec_encode_header (sample_header 1) 0 = Some hb
    ∧ run 0 spec_encode_header
          (round_trip_trace 100 [sample_endpoint] 18 [] hb [x2a])
          (World_new "kafka1" 9092 "c1") = Some w
    ∧ shared w !! f = Some (Ready (PacketDecoder_new [x2a]))
    ∧ in_flight_ (broker w) = [].
Proof.
  destruct (spec_encode_header (sample_header 1) 0) as [hb|] eqn:He;
    [|vm_compute in He; discriminate].
  exists hb.
  destruct (single_request_round_trip 0 spec_encode_header
              "kafka1" 9092 "c1" 100 [sample_endpoint] 18 [] hb [x2a])
    as (w & f & H); [discriminate|exact He|cbn; lia|unfold int32_max; cbn; lia|].
  exists w, f. split; [reflexivity|exact H].
Defined.

Lemma hex_two_digits_per_byte_witness :
  ∃ out, hex [x00; xff; x1a] = Some out
    ∧ String.length out = (2 * length [x00; xff; x1a])%nat
    ∧ Forall (fun c => is_Some (hex_value c))
             (String.list_ascii_of_string out).
Proof.
  apply (hex_two_digits_per_byte [x00; xff; x1a]). vm_compute. reflexivity.
Defined.

Lemma hex_round_trip_witness :
  hex [x00; xff; x1a] = Some "00ff1a"
  ∧ unhex "00ff1a" = Some [x00; xff; x1a].
Proof.
  assert (H : hex [x00; xff; x1a] = Some "00ff1a") by (vm_compute; reflexivity).
  split; [exact H|]. exact (hex_round_trip [x00; xff; x1a] "00ff1a" H).
Defined.

Lemma hex_app_witness :
  ∃ oa ob, hex [x00; xff] = Some oa ∧ hex [x1a] = Some ob
           ∧ hex ([x00; xff] ++ [x1a]) = Some (oa +:+ ob).
Proof.
  apply (hex_app [x00; xff] [x1a]). vm_compute. reflexivity.
Defined.

Lemma starts_with_trans_witness :
  starts_with [x01; x02; x03] [x01; x02] = Some true
  ∧ starts_with [x01; x02] [x01] = Some true
  ∧ starts_with [x01; x02; x03] [x01] = Some true.
Proof.
  assert (H1 : starts_with [x01; x02; x03] [x01; x02] = Some true)
    by (vm_compute; reflexivity).
  assert (H2 : starts_with [x01; x02] [x01] = Some true)
    by (vm_compute; reflexivity).
  split; [exact H1|]. split; [exact H2|].
  exact (starts_with_trans [x01; x02; x03] [x01; x02] [x01] H1 H2).
Defined.

Lemma starts_with_hex_witness :
  starts_with [x01; x02; xff] [x01; x02] = Some true
  ↔ ∃ rest, "0102ff" = "0102" +:+ rest.
Proof.
  apply (starts_with_hex [x01; x02; xff] [x01; x02] "0102ff" "0102");
    vm_compute; reflexivity.
Defined.
